(** * LunarLanderRL: the trajectory buffer and the epoch loop of [solution.py]

    A shallow embedding of the vanilla-policy-gradient trainer of
    [src/solution.py]: [discount_cumsum], the class [VPGBuffer]
    ([store], [end_traj], [get]), [MLPActorCritic.step], [Agent.pi_update],
    [Agent.v_update] and [Agent.train].

    Numbers.  The source computes in IEEE floating point (float32 arrays,
    float64 intermediates).  The embedding idealises every float as an exact
    real number of [R]; rounding is not modelled.  The one operation of the
    source that leaves the finite numbers by itself, the division of
    [VPGBuffer.get], is modelled with the extended values [fl] (finite,
    signed infinity, NaN), and so is everything computed from its result.
    Two limits follow.  Whether a computed standard deviation is exactly zero
    is decided on the reals; in floating point the mean of equal numbers may
    be rounded away from them, so nothing below is stated of [get] under the
    sole assumption that the advantages are equal.  And the rows of
    [obs_buf] are lists, which carry no shape; numpy's shape rule for the
    assignment of a row is a hypothesis, [Buffer.obs_rows], of the theorems
    on [store].

    Collaborators.  The environment, the two networks, the random source of
    [Categorical.sample] and the Adam optimizer are libraries outside the
    repository; they are Section variables, and every theorem holds for all
    of them. *)

From Stdlib Require Import Reals Lra Lia List Bool ZArith.
From stdpp Require Import base list.
Import ListNotations.

Open Scope R_scope.

(* ===================================================================== *)
(** ** Sums of reals *)
(* ===================================================================== *)

(** [Rsum l] is the sum of the elements of [l]. *)
Definition Rsum (l : list R) : R := fold_right Rplus 0 l.

(* ===================================================================== *)
(** ** [discount_cumsum] *)
(* ===================================================================== *)

Module Signal.

(** [scipy.signal.lfilter(b, a, x)] for [b = [b0]] and [a = [1, a1]], in the
    transposed direct form II that scipy runs: one delay [z], started at 0;
    each sample gives [y = b0 * x + z] and leaves [z = b1 * x - a1 * y],
    where [b1 = 0] pads [b] to the length of [a]. *)
Fixpoint lfilter_aux (b0 a1 z : R) (x : list R) : list R :=
  match x with
  | [] => []
  | xn :: x' =>
      let yn := b0 * xn + z in
      yn :: lfilter_aux b0 a1 (0 * xn - a1 * yn) x'
  end.

Definition lfilter (b0 a1 : R) (x : list R) : list R := lfilter_aux b0 a1 0 x.

(** The delay left behind once [x] has been filtered. *)
Fixpoint lfilter_state (b0 a1 z : R) (x : list R) : R :=
  match x with
  | [] => z
  | xn :: x' => lfilter_state b0 a1 (0 * xn - a1 * (b0 * xn + z)) x'
  end.

End Signal.

(** [discount_cumsum(x, discount)]:
    [lfilter([1], [1, float(-discount)], x[::-1], axis=0)[::-1]]. *)
Definition discount_cumsum (x : list R) (discount : R) : list R :=
  rev (Signal.lfilter 1 (- discount) (rev x)).

(** The closed form of the docstring, entry [i]:
    [x[i] + discount * x[i+1] + discount^2 * x[i+2] + ... ] up to the last
    element of [x]. *)
Definition disc_sum (discount : R) (x : list R) (i : nat) : R :=
  Rsum (map (fun k => discount ^ k * nth (i + k) x 0) (seq 0 (length x - i))).

(* ===================================================================== *)
(** ** Extended values: what a float division can return *)
(* ===================================================================== *)

(** A float idealised: a real number, a signed infinity, or NaN.  Signed
    zeros are not modelled: a zero denominator counts as [+0]. *)
Inductive fl : Type :=
  | Fin (r : R)
  | Inf (negative : bool)
  | NaN.

Definition Rnegb (r : R) : bool := if Rlt_dec r 0 then true else false.
Definition Rzerob (r : R) : bool := if Req_dec_T r 0 then true else false.

Definition fneg (a : fl) : fl :=
  match a with
  | Fin r => Fin (- r)
  | Inf s => Inf (negb s)
  | NaN => NaN
  end.

Definition fadd (a b : fl) : fl :=
  match a, b with
  | Fin r, Fin s => Fin (r + s)
  | Fin _, Inf s => Inf s
  | Inf s, Fin _ => Inf s
  | Inf s, Inf t => if eqb s t then Inf s else NaN
  | _, _ => NaN
  end.

Definition fsub (a b : fl) : fl := fadd a (fneg b).

Definition fmul (a b : fl) : fl :=
  match a, b with
  | Fin r, Fin s => Fin (r * s)
  | Fin r, Inf s => if Rzerob r then NaN else Inf (xorb (Rnegb r) s)
  | Inf s, Fin r => if Rzerob r then NaN else Inf (xorb s (Rnegb r))
  | Inf s, Inf t => Inf (xorb s t)
  | _, _ => NaN
  end.

(** Division as numpy scalars and torch tensors do it: a zero denominator
    raises nothing; [0/0] is NaN and [x/0] an infinity. *)
Definition fdiv (a b : fl) : fl :=
  match a, b with
  | Fin r, Fin s =>
      if Rzerob s then (if Rzerob r then NaN else Inf (Rnegb r))
      else Fin (r / s)
  | Fin _, Inf _ => Fin 0
  | Inf s, Fin r => Inf (xorb s (Rnegb r))
  | _, _ => NaN
  end.

Definition fabs (a : fl) : fl :=
  match a with
  | Fin r => Fin (Rabs r)
  | Inf _ => Inf false
  | NaN => NaN
  end.

Definition fsqrt (a : fl) : fl :=
  match a with
  | Fin r => if Rnegb r then NaN else Fin (sqrt r)
  | Inf false => Inf false
  | Inf true => NaN
  | NaN => NaN
  end.

Definition fsum (a : list fl) : fl := fold_right fadd (Fin 0) a.

(** [np.mean(a)]: the sum over the number of elements ([0/0] on the empty
    array). *)
Definition np_mean (a : list fl) : fl :=
  fdiv (fsum a) (Fin (INR (length a))).

(** [np.std(a)]: [sqrt(mean(abs(a - a.mean())**2))], on exact reals. *)
Definition np_std (a : list fl) : fl :=
  let m := np_mean a in
  fsqrt (np_mean (map (fun x => let d := fabs (fsub x m) in fmul d d) a)).

(** Mean and (population) standard deviation of finitely many reals. *)
Definition Rmean (a : list R) : R := Rsum a / INR (length a).
Definition Rstd (a : list R) : R :=
  sqrt (Rmean (map (fun x => Rabs (x - Rmean a) * Rabs (x - Rmean a)) a)).

Definition is_nan (a : fl) : bool :=
  match a with NaN => true | _ => false end.

(** [np.isfinite]. *)
Definition is_finite (a : fl) : bool :=
  match a with Fin _ => true | _ => false end.

(* ===================================================================== *)
(** ** Exceptions *)
(* ===================================================================== *)

Inductive exn : Type :=
  AssertionError | IndexError | TypeError | RuntimeError.

Inductive result (A : Type) : Type :=
  | Ok (a : A)
  | Raise (e : exn).
Arguments Ok {A} a.
Arguments Raise {A} e.

Definition bind {A B : Type} (c : result A) (k : A -> result B) : result B :=
  match c with
  | Ok a => k a
  | Raise e => Raise e
  end.

Notation "'do' x <- c ; k" := (bind c (fun x => k))
  (at level 10, x name, c at level 100, k at level 200).

Definition fails {A : Type} (c : result A) : Prop := exists e, c = Raise e.

(* ===================================================================== *)
(** ** Arrays *)
(* ===================================================================== *)

(** [a[i] = x] on an array: out of range raises [IndexError]. *)
Definition array_set {A : Type} (a : list A) (i : nat) (x : A)
  : result (list A) :=
  if decide (i < length a)%nat then Ok (<[i := x]> a) else Raise IndexError.

(** [a[start:stop]] for non-negative bounds; Python clamps both to the
    length, and so do [take] and [drop]. *)
Definition slice_get {A : Type} (start stop : nat) (a : list A) : list A :=
  take (stop - start) (drop start a).

(** [a[start:stop] = v], for [v] as long as the slice (the only use the
    source makes of it); an empty range leaves [a] as it is. *)
Definition slice_set {A : Type} (start stop : nat) (v a : list A) : list A :=
  take start a ++ v ++ drop (Nat.max start stop) a.

(** [x[:-1]] and [x[1:]]. *)
Definition but_last {A : Type} (x : list A) : list A := take (length x - 1) x.
Definition but_first {A : Type} (x : list A) : list A := drop 1 x.

(** Elementwise arithmetic of numpy on arrays of one length. *)
Definition vadd (x y : list R) : list R := zip_with Rplus x y.
Definition vsub (x y : list R) : list R := zip_with Rminus x y.
Definition vscale (c : R) (x : list R) : list R := map (Rmult c) x.

(* ===================================================================== *)
(** ** [VPGBuffer] *)
(* ===================================================================== *)

(** An observation is a vector of reals.  An action is the index of one of
    the four engines; [act_buf] keeps it as a float32, which holds such an
    index exactly and gives it back under [.long()]. *)
Definition Obs : Type := list R.

Record VPGBuffer : Type := mkVPGBuffer {
  obs_buf : list Obs;
  act_buf : list Z;
  phi_buf : list fl;       (* advantage estimates *)
  rew_buf : list R;        (* rewards *)
  ret_buf : list R;        (* trajectory's remaining return *)
  val_buf : list R;        (* values predicted *)
  logp_buf : list R;       (* log probabilities of chosen actions *)
  gamma : R;
  lam : R;
  ptr : nat;
  path_start_idx : nat;
  max_size : nat
}.

(** What [get] returns: the dictionary [obs], [act], [ret], [phi], [logp]. *)
Record Batch : Type := mkBatch {
  data_obs : list Obs;
  data_act : list Z;
  data_ret : list R;
  data_phi : list fl;
  data_logp : list R
}.

Module Buffer.

(** [VPGBuffer.__init__]. *)
Definition init (obs_dim size : nat) (gamma lam : R) : VPGBuffer :=
  {| obs_buf := replicate size (replicate obs_dim 0);
     act_buf := replicate size 0%Z;
     phi_buf := replicate size (Fin 0);
     rew_buf := replicate size 0;
     ret_buf := replicate size 0;
     val_buf := replicate size 0;
     logp_buf := replicate size 0;
     gamma := gamma;
     lam := lam;
     ptr := 0;
     path_start_idx := 0;
     max_size := size |}.

(** [VPGBuffer.store].  [self.obs_buf[self.ptr] = obs] is the assignment of
    a row: it is modelled for an [obs] that has the length of the rows (see
    [obs_rows] below), which is what the environment hands to [train];
    numpy raises [ValueError] on another length, and spreads a single
    number over the row. *)
Definition store (b : VPGBuffer) (obs : Obs) (act : Z) (rew val logp : R)
  : result VPGBuffer :=
  if decide (ptr b < max_size b)%nat then
    do obs_buf' <- array_set (obs_buf b) (ptr b) obs;
    do act_buf' <- array_set (act_buf b) (ptr b) act;
    do rew_buf' <- array_set (rew_buf b) (ptr b) rew;
    do val_buf' <- array_set (val_buf b) (ptr b) val;
    do logp_buf' <- array_set (logp_buf b) (ptr b) logp;
    Ok {| obs_buf := obs_buf';
          act_buf := act_buf';
          phi_buf := phi_buf b;
          rew_buf := rew_buf';
          ret_buf := ret_buf b;
          val_buf := val_buf';
          logp_buf := logp_buf';
          gamma := gamma b;
          lam := lam b;
          ptr := ptr b + 1;
          path_start_idx := path_start_idx b;
          max_size := max_size b |}
  else Raise AssertionError.

(** The TD residuals of [end_traj]:
    [rews[:-1] + self.gamma*vals[1:] - vals[:-1]]. *)
Definition deltas (gamma : R) (rews vals : list R) : list R :=
  vsub (vadd (but_last rews) (vscale gamma (but_first vals))) (but_last vals).

(** [VPGBuffer.end_traj]. *)
Definition end_traj (b : VPGBuffer) (last_val : R) : VPGBuffer :=
  let start := path_start_idx b in
  let stop := ptr b in
  let rews := slice_get start stop (rew_buf b) ++ [last_val] in
  let vals := slice_get start stop (val_buf b) ++ [last_val] in
  let deltas := deltas (gamma b) rews vals in
  let discount := gamma b * lam b in
  {| obs_buf := obs_buf b;
     act_buf := act_buf b;
     phi_buf :=
       slice_set start stop (map Fin (discount_cumsum deltas discount))
                 (phi_buf b);
     rew_buf := rew_buf b;
     ret_buf :=
       slice_set start stop (discount_cumsum (but_last rews) (gamma b))
                 (ret_buf b);
     val_buf := val_buf b;
     logp_buf := logp_buf b;
     gamma := gamma b;
     lam := lam b;
     ptr := ptr b;
     path_start_idx := ptr b;
     max_size := max_size b |}.

(** [VPGBuffer.get]. *)
Definition get (b : VPGBuffer) : result (VPGBuffer * Batch) :=
  if decide (ptr b = max_size b) then
    let mean := np_mean (phi_buf b) in
    let std := np_std (phi_buf b) in
    let phi_buf' := map (fun x => fdiv (fsub x mean) std) (phi_buf b) in
    Ok ({| obs_buf := obs_buf b;
           act_buf := act_buf b;
           phi_buf := phi_buf';
           rew_buf := rew_buf b;
           ret_buf := ret_buf b;
           val_buf := val_buf b;
           logp_buf := logp_buf b;
           gamma := gamma b;
           lam := lam b;
           ptr := 0;
           path_start_idx := 0;
           max_size := max_size b |},
        {| data_obs := obs_buf b;
           data_act := act_buf b;
           data_ret := ret_buf b;
           data_phi := phi_buf';
           data_logp := logp_buf b |})
  else Raise AssertionError.

(** The data model of the buffer: every array has [max_size] entries and
    [path_start_idx <= ptr <= max_size]. *)
Record wf (b : VPGBuffer) : Prop := mk_wf {
  wf_obs : length (obs_buf b) = max_size b;
  wf_act : length (act_buf b) = max_size b;
  wf_phi : length (phi_buf b) = max_size b;
  wf_rew : length (rew_buf b) = max_size b;
  wf_ret : length (ret_buf b) = max_size b;
  wf_val : length (val_buf b) = max_size b;
  wf_logp : length (logp_buf b) = max_size b;
  wf_start : (path_start_idx b <= ptr b)%nat;
  wf_ptr : (ptr b <= max_size b)%nat
}.

(** The shape [(size, obs_dim)] of [obs_buf]: every row has [d] entries. *)
Definition obs_rows (d : nat) (b : VPGBuffer) : Prop :=
  Forall (fun row : Obs => length row = d) (obs_buf b).

End Buffer.

(* ===================================================================== *)
(** ** Collaborators *)
(* ===================================================================== *)

(** The environment: [reset()[0]] and [step(a)], which returns the next
    observation, the reward and the flags [terminal] and [truncated]. *)
Class Environment : Type := {
  env_state : Type;
  env_reset : env_state -> env_state * Obs;
  env_step : env_state -> Z -> env_state * (Obs * R * bool * bool)
}.

(** What the source uses of torch: the two networks as functions of their
    parameters, the random source behind [Categorical.sample], and autograd
    with the Adam optimizer.  [backward loss p g] adds to [g] the gradient of
    [loss] at [p]; [adam_step] is [optimizer.step()]. *)
Class Torch : Type := {
  params : Type;
  logits_net : params -> Obs -> list R;
  v_net : params -> Obs -> R;
  rng : Type;
  sample : list R -> rng -> Z * rng;
  grad : Type;
  opt_state : Type;
  zero_grad : grad;
  backward : (params -> fl) -> params -> grad -> grad;
  adam_step : opt_state -> params -> grad -> params * opt_state
}.

(** [Categorical(logits=l).log_prob(a)]: the logit of [a], normalised, for
    an action [a] that is an index of [l] (the only ones [sample] draws;
    torch's argument validation refuses the others). *)
Definition log_prob (logits : list R) (a : Z) : R :=
  nth (Z.to_nat a) logits 0 - ln (Rsum (map exp logits)).

(** What the trainer does, in order. *)
Inductive Event : Type :=
  | EvReset                            (* env.reset() *)
  | EvEnvStep (a : Z)                  (* env.step(a) *)
  | EvAcStep (state : Obs)             (* ac.step(state) *)
  | EvStore (ptr : nat)                (* buf.store(...), ptr before it *)
  | EvEndTraj (ptr : nat) (last_val : R)   (* buf.end_traj(last_val) *)
  | EvGet (ptr max_size : nat)         (* buf.get(), as it is entered *)
  | EvPiUpdate                         (* pi_update(data) entered *)
  | EvPiOptStep                        (* pi_optimizer.step() *)
  | EvVUpdate                          (* v_update(data) entered *)
  | EvVOptStep.                        (* v_optimizer.step() *)

(** The calls of [store] in a trace, each with the [ptr] it found. *)
Fixpoint store_ptrs (evs : list Event) : list nat :=
  match evs with
  | [] => []
  | EvStore p :: evs' => p :: store_ptrs evs'
  | _ :: evs' => store_ptrs evs'
  end.

(** The events of experience collection: everything but [get] and the two
    updates. *)
Definition collecting (ev : Event) : bool :=
  match ev with
  | EvGet _ _ | EvPiUpdate | EvPiOptStep | EvVUpdate | EvVOptStep => false
  | _ => true
  end.

Definition is_pi_opt_step (ev : Event) : bool :=
  match ev with EvPiOptStep => true | _ => false end.

Definition count_events (p : Event -> bool) (evs : list Event) : nat :=
  length (List.filter p evs).

(** How an epoch ends: [get] entered with [ptr = max_size = steps], then the
    policy update with its one optimizer step, then the value update with
    its hundred. *)
Definition epoch_tail (steps : nat) : list Event :=
  [EvGet steps steps; EvPiUpdate; EvPiOptStep; EvVUpdate]
  ++ replicate 100 EvVOptStep.

(** The trace of one epoch of [steps] steps: collection, in which [store] is
    entered with [ptr = 0, 1, ..., steps - 1]; [end_traj] at [ptr = steps]
    and the reset that follows it; then the tail. *)
Definition epoch_shape (steps : nat) (evs : list Event) : Prop :=
  exists pre last_val,
    evs = pre ++ [EvEndTraj steps last_val; EvReset] ++ epoch_tail steps /\
    forallb collecting pre = true /\
    store_ptrs pre = seq 0 steps.

Section Trainer.

Context {E : Environment} {T : Torch}.

(* ------------------------------------------------------------------- *)
(** *** [MLPCategoricalActor] and [MLPActorCritic] *)
(* ------------------------------------------------------------------- *)

(** [MLPCategoricalActor.forward(obs, act)]: the distribution, as its
    logits, and the log-probability of [act] when one is given. *)
Definition pi_forward (p : params) (obs : Obs) (act : option Z)
  : list R * option R :=
  let pi := logits_net p obs in
  let logp_a := None in
  let logp_a :=
    match act with
    | Some a => Some (log_prob pi a)
    | None => logp_a
    end in
  (pi, logp_a).

(** [MLPActorCritic.step(state)]. *)
Definition step (p_pi p_v : params) (state : Obs) (g : rng)
  : (Z * R * option R) * rng :=
  let '(distr, log_prob) := pi_forward p_pi state None in
  let '(act, g) := sample distr g in
  let value_at_state := v_net p_v state in
  let '(dist2, log_prob) := pi_forward p_pi state (Some act) in
  let '(act, g) := sample distr g in
  ((act, value_at_state, log_prob), g).

(** What the docstring of [step] promises: the log-probability returned is
    that of the action returned, under the distribution at [state]. *)
Definition step_consistent (p_pi p_v : params) (state : Obs) (g : rng) : Prop :=
  let '((act, _, logp), _) := step p_pi p_v state g in
  logp = Some (log_prob (logits_net p_pi state) act).

(* ------------------------------------------------------------------- *)
(** *** The agent and its monad *)
(* ------------------------------------------------------------------- *)

(** A network under training: parameters, accumulated gradient, optimizer. *)
Record Learner : Type := mkLearner {
  l_params : params;
  l_grad : grad;
  l_opt : opt_state
}.

(** [Agent]: the environment, the actor and the critic with their optimizers,
    torch's random source, and the record of the calls made so far. *)
Record Agent : Type := mkAgent {
  ag_env : env_state;
  ag_rng : rng;
  ag_pi : Learner;
  ag_v : Learner;
  ag_log : list Event
}.

(** A computation on the agent that may raise. *)
Definition M (A : Type) : Type := Agent -> result (A * Agent).

Definition retM {A : Type} (a : A) : M A := fun ag => Ok (a, ag).

Definition bindM {A B : Type} (c : M A) (k : A -> M B) : M B :=
  fun ag =>
    match c ag with
    | Ok (a, ag') => k a ag'
    | Raise e => Raise e
    end.

Definition raiseM {A : Type} (e : exn) : M A := fun _ => Raise e.

Definition liftM {A : Type} (c : result A) : M A :=
  fun ag => match c with Ok a => Ok (a, ag) | Raise e => Raise e end.

Notation "'do!' x <- c ; k" := (bindM c (fun x => k))
  (at level 10, x name, c at level 100, k at level 200).
Notation "'do!' ' p <- c ; k" := (bindM c (fun x => match x with p => k end))
  (at level 10, p pattern, c at level 100, k at level 200).

(** [runs c ag a ag' evs]: from [ag], [c] returns [a], leaves [ag'] and
    adds the events [evs] to the record. *)
Definition runs {A : Type} (c : M A) (ag : Agent) (a : A) (ag' : Agent)
    (evs : list Event) : Prop :=
  c ag = Ok (a, ag') /\ ag_log ag' = ag_log ag ++ evs.

(** The record an outcome leaves, when it is not an exception. *)
Definition trace_of {A : Type} (r : result (A * Agent)) : option (list Event) :=
  match r with
  | Ok (_, ag') => Some (ag_log ag')
  | Raise _ => None
  end.

Definition log (ev : Event) : M unit :=
  fun ag =>
    Ok (tt, {| ag_env := ag_env ag; ag_rng := ag_rng ag; ag_pi := ag_pi ag;
               ag_v := ag_v ag; ag_log := ag_log ag ++ [ev] |}).

(** [self.env.reset()[0]]. *)
Definition reset_env : M Obs :=
  fun ag =>
    let '(e, obs) := env_reset (ag_env ag) in
    Ok (obs, {| ag_env := e; ag_rng := ag_rng ag; ag_pi := ag_pi ag;
                ag_v := ag_v ag; ag_log := ag_log ag ++ [EvReset] |}).

(** [self.env.step(a)]. *)
Definition step_env (a : Z) : M (Obs * R * bool * bool) :=
  fun ag =>
    let '(e, r) := env_step (ag_env ag) a in
    Ok (r, {| ag_env := e; ag_rng := ag_rng ag; ag_pi := ag_pi ag;
              ag_v := ag_v ag; ag_log := ag_log ag ++ [EvEnvStep a] |}).

(** [self.ac.step(torch.as_tensor(state))]. *)
Definition ac_step (state : Obs) : M (Z * R * option R) :=
  fun ag =>
    let '(r, g) :=
      step (l_params (ag_pi ag)) (l_params (ag_v ag)) state (ag_rng ag) in
    Ok (r, {| ag_env := ag_env ag; ag_rng := g; ag_pi := ag_pi ag;
              ag_v := ag_v ag; ag_log := ag_log ag ++ [EvAcStep state] |}).

(** [buf.store(state, a, reward, v, logp)].  [step] always returns a
    log-probability: the branch of [None] is never taken by [train].  (numpy
    would store NaN there, which [logp_buf], an array of reals, cannot hold:
    the model stops with an exception instead.) *)
Definition buf_store (b : VPGBuffer) (obs : Obs) (act : Z) (rew val : R)
    (logp : option R) : M VPGBuffer :=
  do! _ <- log (EvStore (ptr b)) ;
  match logp with
  | Some lp => liftM (Buffer.store b obs act rew val lp)
  | None =>
      if decide (ptr b < max_size b)%nat then raiseM TypeError
      else raiseM AssertionError
  end.

(** [buf.end_traj(v)]. *)
Definition buf_end_traj (b : VPGBuffer) (last_val : R) : M VPGBuffer :=
  do! _ <- log (EvEndTraj (ptr b) last_val) ;
  retM (Buffer.end_traj b last_val).

(** [buf.get()]. *)
Definition buf_get (b : VPGBuffer) : M (VPGBuffer * Batch) :=
  do! _ <- log (EvGet (ptr b) (max_size b)) ;
  liftM (Buffer.get b).

(* ------------------------------------------------------------------- *)
(** *** [Agent.pi_update] and [Agent.v_update] *)
(* ------------------------------------------------------------------- *)

(** [self.ac.pi.forward(obs, act=act)] on a batch: one log-probability per
    stored observation and action, under the parameters [p]. *)
Definition batch_log_prob (p : params) (obs : list Obs) (act : list Z)
  : list R :=
  zip_with (fun o a => log_prob (logits_net p o) a) obs act.

(** The loss of [pi_update] as a function of the policy parameters:
    [g = phi*log_pb; loss = -g.mean()]. *)
Definition pi_loss (data : Batch) (p : params) : fl :=
  let log_pb := batch_log_prob p (data_obs data) (data_act data) in
  let g := zip_with fmul (data_phi data) (map Fin log_pb) in
  fneg (np_mean g).

(** The log-probability, under the parameters [p], of the action stored at
    index [i] of the batch. *)
Definition batch_logp_at (data : Batch) (p : params) (i : nat) : R :=
  log_prob (logits_net p (nth i (data_obs data) []))
           (nth i (data_act data) 0%Z).

(** The loss of [v_update]: [nn.MSELoss()(fwd, ret-phi)]. *)
Definition v_loss (data : Batch) (p : params) : fl :=
  let fwd := map (fun o => Fin (v_net p o)) (data_obs data) in
  let target := zip_with fsub (map Fin (data_ret data)) (data_phi data) in
  np_mean (zip_with (fun f t => fmul (fsub f t) (fsub f t)) fwd target).

Definition set_pi (l : Learner) : M unit :=
  fun ag =>
    Ok (tt, {| ag_env := ag_env ag; ag_rng := ag_rng ag; ag_pi := l;
               ag_v := ag_v ag; ag_log := ag_log ag |}).

Definition set_v (l : Learner) : M unit :=
  fun ag =>
    Ok (tt, {| ag_env := ag_env ag; ag_rng := ag_rng ag; ag_pi := ag_pi ag;
               ag_v := l; ag_log := ag_log ag |}).

Definition get_pi : M Learner := fun ag => Ok (ag_pi ag, ag).
Definition get_v : M Learner := fun ag => Ok (ag_v ag, ag).

(** [optimizer.zero_grad()], [loss.backward()] and [optimizer.step()] on one
    learner. *)
Definition learner_zero_grad (l : Learner) : Learner :=
  {| l_params := l_params l; l_grad := zero_grad; l_opt := l_opt l |}.

Definition learner_backward (loss : params -> fl) (l : Learner) : Learner :=
  {| l_params := l_params l;
     l_grad := backward loss (l_params l) (l_grad l);
     l_opt := l_opt l |}.

Definition learner_step (l : Learner) : Learner :=
  let '(p, o) := adam_step (l_opt l) (l_params l) (l_grad l) in
  {| l_params := p; l_grad := l_grad l; l_opt := o |}.

(** [Categorical(logits=logits)] on the logits of a batch: the argument
    validation of the distribution raises [RuntimeError] when the batch has
    no row. *)
Definition categorical_check (obs : list Obs) : M unit :=
  match obs with
  | [] => raiseM RuntimeError
  | _ :: _ => retM tt
  end.

(** [Agent.pi_update(data)]. *)
Definition pi_update (data : Batch) : M unit :=
  do! _ <- log EvPiUpdate ;
  do! pi <- get_pi ;
  do! _ <- set_pi (learner_zero_grad pi) ;
  do! _ <- categorical_check (data_obs data) ;
  do! pi <- get_pi ;
  do! _ <- set_pi (learner_backward (pi_loss data) pi) ;
  do! pi <- get_pi ;
  do! _ <- log EvPiOptStep ;
  set_pi (learner_step pi).

(** [for t in range(n)], counting from [start]. *)
Fixpoint for_range {S : Type} (n start : nat) (body : nat -> S -> M S)
    (s : S) : M S :=
  match n with
  | O => retM s
  | Datatypes.S n' => do! s' <- body start s ; for_range n' (Datatypes.S start) body s'
  end.

(** The body of the loop of [v_update]: forward, loss, [loss.backward()],
    [self.v_optimizer.step()]. *)
Definition v_update_iter (data : Batch) (_ : nat) (_ : unit) : M unit :=
  do! v <- get_v ;
  do! _ <- set_v (learner_backward (v_loss data) v) ;
  do! v <- get_v ;
  do! _ <- log EvVOptStep ;
  set_v (learner_step v).

(** [Agent.v_update(data)]: the gradient is zeroed once, before the loop. *)
Definition v_update (data : Batch) : M unit :=
  do! _ <- log EvVUpdate ;
  do! v <- get_v ;
  do! _ <- set_v (learner_zero_grad v) ;
  for_range 100 0 (v_update_iter data) tt.

(* ------------------------------------------------------------------- *)
(** *** [Agent.train] *)
(* ------------------------------------------------------------------- *)

(** The local variables of [train] that live across iterations. *)
Record Locals : Type := mkLocals {
  buf : VPGBuffer;
  state : Obs;
  ep_ret : R;
  ep_len : nat;
  ep_returns : list R
}.

(** The value handed to [end_traj]:
    [if epoch_ended: _, v, _ = self.ac.step(state)  else: v = 0]. *)
Definition bootstrap_value (epoch_ended : bool) (state : Obs) : M R :=
  if epoch_ended then
    do! '(_, v, _) <- ac_step state ; retM v
  else retM 0.

(** One iteration of [for t in range(steps_per_epoch)]. *)
Definition train_step (steps_per_epoch max_ep_len : nat) (t : nat)
    (l : Locals) : M Locals :=
  do! '(a, v, logp) <- ac_step (state l) ;
  do! '(next_state, reward, terminal, truncated) <- step_env a ;
  let ep_ret := ep_ret l + reward in
  let ep_len := (ep_len l + 1)%nat in
  do! b <- buf_store (buf l) (state l) a reward v logp ;
  let state := next_state in
  let timeout := Nat.eqb ep_len max_ep_len in
  let epoch_ended := Nat.eqb t (steps_per_epoch - 1) in
  if terminal || timeout || epoch_ended then
    do! v <- bootstrap_value epoch_ended state ;
    let ep_returns :=
      if timeout || terminal then ep_returns l ++ [ep_ret] else ep_returns l in
    do! b <- buf_end_traj b v ;
    do! state <- reset_env ;
    retM {| buf := b; state := state; ep_ret := 0; ep_len := 0;
            ep_returns := ep_returns |}
  else
    retM {| buf := b; state := state; ep_ret := ep_ret; ep_len := ep_len;
            ep_returns := ep_returns l |}.

(** One iteration of [for epoch in range(epochs)]; what is printed is left
    out. *)
Definition train_epoch (steps_per_epoch max_ep_len : nat) (epoch : nat)
    (l : Locals) : M Locals :=
  let l := {| buf := buf l; state := state l; ep_ret := ep_ret l;
              ep_len := ep_len l; ep_returns := [] |} in
  do! l <- for_range steps_per_epoch 0 (train_step steps_per_epoch max_ep_len) l ;
  do! '(b, data) <- buf_get (buf l) ;
  do! _ <- pi_update data ;
  do! _ <- v_update data ;
  retM {| buf := b; state := state l; ep_ret := ep_ret l;
          ep_len := ep_len l; ep_returns := ep_returns l |}.

(** What one step of collection does to the state, next to its record
    [evs]: the environment is stepped with an action [a]; [store] puts the
    current observation, [a], the reward, the critic's value and a
    log-probability into the buffer, which gives [b1]; the buffer the step
    leaves is [b1], or [end_traj] of [b1] when the trajectory is closed; no
    network is touched; and this is what [train_step] returns. *)
Definition step_run (steps mel t : nat) (l : Locals) (ag : Agent)
    (l' : Locals) (ag' : Agent) (evs : list Event) : Prop :=
  exists a lp ns r terminal truncated b1,
    snd (env_step (ag_env ag) a) = (ns, r, terminal, truncated) /\
    Buffer.store (buf l) (state l) a r
                 (v_net (l_params (ag_v ag)) (state l)) lp = Ok b1 /\
    let timeout := Nat.eqb (ep_len l + 1) mel in
    let epoch_ended := Nat.eqb t (steps - 1) in
    let closing := terminal || timeout || epoch_ended in
    let last_val :=
      if epoch_ended then v_net (l_params (ag_v ag)) ns else 0 in
    buf l' = (if closing then Buffer.end_traj b1 last_val else b1) /\
    evs = [EvAcStep (state l); EvEnvStep a; EvStore (ptr (buf l))]
          ++ (if closing then
                (if epoch_ended then [EvAcStep ns] else [])
                ++ [EvEndTraj (ptr b1) last_val; EvReset]
              else []) /\
    ag_pi ag' = ag_pi ag /\ ag_v ag' = ag_v ag /\
    runs (train_step steps mel t l) ag l' ag' evs.

(** [n] steps of collection in a row, from the step numbered [t]: each
    starts in the state the one before left. *)
Inductive steps_run (steps mel : nat)
  : nat -> nat -> Locals -> Agent -> Locals -> Agent -> list Event -> Prop :=
  | steps_done t l ag : steps_run steps mel 0 t l ag l ag []
  | steps_next n t l ag l1 ag1 evs1 l' ag' evs :
      step_run steps mel t l ag l1 ag1 evs1 ->
      steps_run steps mel n (S t) l1 ag1 l' ag' evs ->
      steps_run steps mel (S n) t l ag l' ag' (evs1 ++ evs).

(** What one epoch does to the state, next to its record [evs].  The
    collection loop is [steps] steps in a row, each with its one [store],
    from [l] and [ag] to [l1] and [ag1], and touches no network; it leaves
    the buffer full and its last trajectory closed; [get] on that buffer
    returns [b2] and the batch [data]; the policy has taken one optimizer
    step on [pi_loss data], the critic a hundred on [v_loss data]; and this
    is what [train_epoch] returns. *)
Definition epoch_run (steps mel epoch : nat) (l : Locals) (ag : Agent)
    (l' : Locals) (ag' : Agent) (evs : list Event) : Prop :=
  exists l1 ag1 evs1 b2 data,
    steps_run steps mel steps 0
      {| buf := buf l; state := state l; ep_ret := ep_ret l;
         ep_len := ep_len l; ep_returns := [] |} ag l1 ag1 evs1 /\
    runs (for_range steps 0 (train_step steps mel)
            {| buf := buf l; state := state l; ep_ret := ep_ret l;
               ep_len := ep_len l; ep_returns := [] |}) ag l1 ag1 evs1 /\
    ag_pi ag1 = ag_pi ag /\ ag_v ag1 = ag_v ag /\
    ptr (buf l1) = steps /\ max_size (buf l1) = steps /\
    path_start_idx (buf l1) = steps /\
    Buffer.get (buf l1) = Ok (b2, data) /\
    buf l' = b2 /\
    ag_pi ag' =
      learner_step
        (learner_backward (pi_loss data) (learner_zero_grad (ag_pi ag))) /\
    ag_v ag' =
      Nat.iter 100 (fun v => learner_step (learner_backward (v_loss data) v))
               (learner_zero_grad (ag_v ag)) /\
    evs = evs1 ++ epoch_tail steps /\
    runs (train_epoch steps mel epoch l) ag l' ag' evs.

(** Epochs in a row, from the epoch numbered [epoch]: each starts in the
    state the one before left, and [evss] has the record of each. *)
Inductive epochs_run (steps mel : nat)
  : nat -> Locals -> Agent -> Locals -> Agent -> list (list Event) -> Prop :=
  | epochs_done epoch l ag : epochs_run steps mel epoch l ag l ag []
  | epochs_next epoch l ag l1 ag1 evs l' ag' evss :
      epoch_run steps mel epoch l ag l1 ag1 evs ->
      epochs_run steps mel (S epoch) l1 ag1 l' ag' evss ->
      epochs_run steps mel epoch l ag l' ag' (evs :: evss).

(** [train] with its training parameters as arguments. *)
Definition train_with (steps_per_epoch epochs max_ep_len : nat)
    (gamma lam : R) : M bool :=
  let b := Buffer.init 8 steps_per_epoch gamma lam in
  do! state <- reset_env ;
  do! _ <- for_range epochs 0 (train_epoch steps_per_epoch max_ep_len)
             {| buf := b; state := state; ep_ret := 0; ep_len := 0;
                ep_returns := [] |} ;
  retM true.

(** [Agent.train()]. *)
Definition train : M bool :=
  train_with 3000 50 300 (99 / 100) (97 / 100).

End Trainer.
(* ===================================================================== *)
(** ** Sample buffers *)
(* ===================================================================== *)

(** A buffer just allocated, and one with an open trajectory of two steps. *)
Definition buf_fresh : VPGBuffer := Buffer.init 8 2 (99 / 100) (97 / 100).

Definition buf_two : VPGBuffer :=
  {| obs_buf := [[0]; [0]];
     act_buf := [1%Z; 2%Z];
     phi_buf := [Fin 0; Fin 0];
     rew_buf := [1; 2];
     ret_buf := [0; 0];
     val_buf := [3; 4];
     logp_buf := [0; 0];
     gamma := 1;
     lam := 1;
     ptr := 2;
     path_start_idx := 0;
     max_size := 2 |}.

(** A full buffer of capacity two whose two advantages are equal. *)
Definition buf_flat : VPGBuffer :=
  {| obs_buf := [[0]; [0]];
     act_buf := [0%Z; 0%Z];
     phi_buf := [Fin 1; Fin 1];
     rew_buf := [0; 0];
     ret_buf := [0; 0];
     val_buf := [0; 0];
     logp_buf := [0; 0];
     gamma := 1;
     lam := 1;
     ptr := 2;
     path_start_idx := 2;
     max_size := 2 |}.

(** A full buffer of capacity two whose advantages differ. *)
Definition buf_full : VPGBuffer :=
  {| obs_buf := [[0]; [0]];
     act_buf := [0%Z; 0%Z];
     phi_buf := [Fin 0; Fin 2];
     rew_buf := [0; 0];
     ret_buf := [0; 0];
     val_buf := [0; 0];
     logp_buf := [0; 0];
     gamma := 1;
     lam := 1;
     ptr := 2;
     path_start_idx := 2;
     max_size := 2 |}.

(** What the specification asks of [get] on a degenerate epoch: it returns,
    and no normalised advantage is NaN. *)
Definition get_guarded (b : VPGBuffer) : Prop :=
  exists b' data,
    Buffer.get b = Ok (b', data) /\
    Forall (fun x => is_nan x = false) (data_phi data).

(* ===================================================================== *)
(** ** Sample collaborators *)
(* ===================================================================== *)

(** An environment that never terminates: every step gives reward 1 and
    the zero observation. *)
Definition obs_zero : Obs := replicate 8 0.

Definition env_endless : Environment :=
  {| env_state := nat;
     env_reset := fun n => (n, obs_zero);
     env_step := fun n _ => (S n, (obs_zero, 1, false, false)) |}.

(** An environment whose every step ends the episode. *)
Definition env_one_step : Environment :=
  {| env_state := nat;
     env_reset := fun n => (n, obs_zero);
     env_step := fun n _ => (S n, (obs_zero, 1, true, false)) |}.

(** Networks with constant outputs (the logits favour action 0, the value
    is 5 everywhere), a random source that is the list of the draws to
    come, and an optimizer that leaves the parameters alone. *)
Definition torch_const : Torch :=
  {| params := unit;
     logits_net := fun _ _ => [1; 0; 0; 0];
     v_net := fun _ _ => 5;
     rng := list Z;
     sample := fun _ g =>
       match g with
       | a :: g' => (a, g')
       | [] => (0%Z, [])
       end;
     grad := unit;
     opt_state := unit;
     zero_grad := tt;
     backward := fun _ _ _ => tt;
     adam_step := fun o p _ => (p, o) |}.

Definition learner_const : @Learner torch_const :=
  @mkLearner torch_const tt tt tt.

(** An agent about to draw action 0 and then action 1. *)
Definition agent_const : @Agent env_endless torch_const :=
  @mkAgent env_endless torch_const 0%nat [0%Z; 1%Z]
           learner_const learner_const [].

(** The same agent in the environment whose every step ends the episode. *)
Definition agent_one_step : @Agent env_one_step torch_const :=
  @mkAgent env_one_step torch_const 0%nat [0%Z; 1%Z]
           learner_const learner_const [].

(** The locals of [train] at the start of an epoch of three steps. *)
Definition locals_start : Locals :=
  {| buf := Buffer.init 8 3 (99 / 100) (97 / 100);
     state := obs_zero; ep_ret := 0; ep_len := 0; ep_returns := [] |}.

(** The locals of [train] at the start of an epoch of one step. *)
Definition locals_one : Locals :=
  {| buf := Buffer.init 8 1 (99 / 100) (97 / 100);
     state := obs_zero; ep_ret := 0; ep_len := 0; ep_returns := [] |}.

(* ===================================================================== *)
(** ** Filling the buffer *)
(* ===================================================================== *)

(** One transition, as [store] takes it. *)
Record Transition : Type := mkTransition {
  t_obs : Obs;
  t_act : Z;
  t_rew : R;
  t_val : R;
  t_logp : R
}.

(** [store] called once for each transition of [ts], in order. *)
Fixpoint store_all (b : VPGBuffer) (ts : list Transition) : result VPGBuffer :=
  match ts with
  | [] => Ok b
  | t :: ts' =>
      do b' <- Buffer.store b (t_obs t) (t_act t) (t_rew t) (t_val t) (t_logp t);
      store_all b' ts'
  end.

(** Two transitions, for the examples. *)
Definition two_transitions : list Transition :=
  [mkTransition [0] 1%Z 1 3 0; mkTransition [0] 2%Z 2 4 0].

(** A fresh buffer of two rows of one entry, the shape of the observations of
    [two_transitions]. *)
Definition buf_one : VPGBuffer := Buffer.init 1 2 (99 / 100) (97 / 100).

(** [buf_two] with [lam = 0]. *)
Definition buf_two_td : VPGBuffer :=
  {| obs_buf := [[0]; [0]];
     act_buf := [1%Z; 2%Z];
     phi_buf := [Fin 0; Fin 0];
     rew_buf := [1; 2];
     ret_buf := [0; 0];
     val_buf := [3; 4];
     logp_buf := [0; 0];
     gamma := 1;
     lam := 0;
     ptr := 2;
     path_start_idx := 0;
     max_size := 2 |}.

(* ===================================================================== *)
(** ** [mlp] *)
(* ===================================================================== *)

(** The activation classes the source passes to [mlp]. *)
Inductive Act : Type := Tanh | Identity.

(** A layer of an [nn.Sequential]: [nn.Linear(n_in, n_out)] or an
    activation. *)
Inductive Layer : Type :=
  | Linear (n_in n_out : nat)
  | Activation (a : Act).

(** [mlp(sizes, activation, output_activation)]: the layers handed to
    [nn.Sequential], in order. *)
Definition mlp (sizes : list nat) (activation output_activation : Act)
  : list Layer :=
  fold_left
    (fun layers j =>
       let act :=
         if (j <? length sizes - 2)%nat then activation
         else output_activation in
       layers ++ [Linear (nth j sizes 0%nat) (nth (S j) sizes 0%nat);
                  Activation act])
    (seq 0 (length sizes - 1)) [].

(** The layers of [MLPCategoricalActor] and of [MLPCritic]. *)
Definition actor_layers (obs_dim act_dim : nat) (hidden_sizes : list nat)
    (activation : Act) : list Layer :=
  mlp ([obs_dim] ++ hidden_sizes ++ [act_dim]) activation Identity.

Definition critic_layers (obs_dim : nat) (hidden_sizes : list nat)
    (activation : Act) : list Layer :=
  mlp ([obs_dim] ++ hidden_sizes ++ [1%nat]) activation Identity.

(** The size of the vector a stack of layers returns on a vector of size
    [d]; a linear layer takes only the size it was built for. *)
Fixpoint out_dim (layers : list Layer) (d : nat) : option nat :=
  match layers with
  | [] => Some d
  | Linear n_in n_out :: rest =>
      if (n_in =? d)%nat then out_dim rest n_out else None
  | Activation _ :: rest => out_dim rest d
  end.

(* ===================================================================== *)
(** ** [get_action] and the evaluation of [main] *)
(* ===================================================================== *)

Definition is_env_step (ev : Event) : bool :=
  match ev with EvEnvStep _ => true | _ => false end.



Section Evaluation.

Context {E : Environment} {T : Torch}.

Notation "'do!' x <- c ; k" := (bindM c (fun x => k))
  (at level 10, x name, c at level 100, k at level 200).
Notation "'do!' ' p <- c ; k" := (bindM c (fun x => match x with p => k end))
  (at level 10, p pattern, c at level 100, k at level 200).

(** [Agent.get_action(obs)]: [self.ac.step(torch.FloatTensor(obs))[0]]. *)
Definition get_action (obs : Obs) : M Z :=
  do! '(a, _, _) <- ac_step obs ;
  retM a.




End Evaluation.

(** An activation layer, when it is one, is [a]. *)
Definition activation_is (a : Act) (l : Layer) : Prop :=
  match l with
  | Activation x => x = a
  | Linear _ _ => True
  end.

(** The open trajectory of the buffer is the running episode: it has
    [ep_len] transitions, fewer than [max_ep_len]. *)
Definition episode_open (max_ep_len : nat) (l : Locals) : Prop :=
  (path_start_idx (buf l) + ep_len l)%nat = ptr (buf l) /\
  (ep_len l < max_ep_len)%nat.
(* ===================================================================== *)
(** ** Facts about [discount_cumsum] *)
(* ===================================================================== *)

Lemma Rsum_app (l1 l2 : list R) : Rsum (l1 ++ l2) = Rsum l1 + Rsum l2.
Proof.
  induction l1 as [|a l1 IH]; simpl.
  - lra.
  - rewrite IH. lra.
Qed.

Lemma Rsum_map_scale (c : R) (l : list R) :
  Rsum (map (Rmult c) l) = c * Rsum l.
Proof.
  induction l as [|a l IH]; simpl.
  - lra.
  - rewrite IH. lra.
Qed.

Lemma lfilter_aux_snoc b0 a1 z (l : list R) (x : R) :
  Signal.lfilter_aux b0 a1 z (l ++ [x]) =
  Signal.lfilter_aux b0 a1 z l ++ [b0 * x + Signal.lfilter_state b0 a1 z l].
Proof.
  revert z. induction l as [|a l IH]; intros z; simpl.
  - reflexivity.
  - now rewrite IH.
Qed.

Lemma lfilter_state_snoc b0 a1 z (l : list R) (x : R) :
  Signal.lfilter_state b0 a1 z (l ++ [x]) =
  0 * x - a1 * (b0 * x + Signal.lfilter_state b0 a1 z l).
Proof.
  revert z. induction l as [|a l IH]; intros z; simpl.
  - reflexivity.
  - now rewrite IH.
Qed.

(** Read from the right, the filter of the reversed input is the running
    total of the docstring. *)
Lemma discount_cumsum_cons (a : R) (l : list R) (d : R) :
  discount_cumsum (a :: l) d =
  (a + d * hd 0 (discount_cumsum l d)) :: discount_cumsum l d.
Proof.
  unfold discount_cumsum, Signal.lfilter. simpl rev at 2.
  rewrite lfilter_aux_snoc, rev_app_distr. simpl. f_equal.
  destruct l as [|b l]; simpl.
  - lra.
  - rewrite lfilter_aux_snoc, rev_app_distr, lfilter_state_snoc. simpl. lra.
Qed.

Lemma discount_cumsum_nil (d : R) : discount_cumsum [] d = [].
Proof. reflexivity. Qed.

Lemma discount_cumsum_length (x : list R) (d : R) :
  length (discount_cumsum x d) = length x.
Proof.
  induction x as [|a l IH].
  - reflexivity.
  - rewrite discount_cumsum_cons. simpl. now rewrite IH.
Qed.

Lemma disc_sum_tail (d a : R) (l : list R) (i : nat) :
  disc_sum d (a :: l) (S i) = disc_sum d l i.
Proof. reflexivity. Qed.

Lemma disc_sum_head (d a : R) (l : list R) :
  disc_sum d (a :: l) 0 = a + d * disc_sum d l 0.
Proof.
  unfold disc_sum. simpl length. rewrite !Nat.sub_0_r.
  cbn [seq map Rsum fold_right]. rewrite <- seq_shift, map_map.
  rewrite <- Rsum_map_scale, map_map. simpl.
  f_equal; [lra|]. f_equal. apply map_ext. intros k. lra.
Qed.

Lemma discount_cumsum_closed (x : list R) (d : R) :
  discount_cumsum x d = map (disc_sum d x) (seq 0 (length x)).
Proof.
  induction x as [|a l IH].
  - reflexivity.
  - rewrite discount_cumsum_cons. simpl length. cbn [seq map].
    rewrite <- seq_shift, map_map.
    rewrite (map_ext _ (disc_sum d l) (fun i => disc_sum_tail d a l i)).
    rewrite <- IH. f_equal.
    rewrite disc_sum_head. f_equal. f_equal.
    rewrite IH. destruct l as [|b l]; reflexivity.
Qed.

Lemma discount_cumsum_zero (x : list R) : discount_cumsum x 0 = x.
Proof.
  induction x as [|a l IH].
  - reflexivity.
  - rewrite discount_cumsum_cons, IH. f_equal. lra.
Qed.

Lemma discount_cumsum_one (x : list R) :
  discount_cumsum x 1 = map (fun i => Rsum (skipn i x)) (seq 0 (length x)).
Proof.
  induction x as [|a l IH].
  - reflexivity.
  - rewrite discount_cumsum_cons. simpl length. cbn [seq map].
    rewrite <- seq_shift, map_map. cbn [skipn]. rewrite <- IH.
    f_equal. simpl. f_equal. rewrite IH.
    destruct l as [|b l]; simpl; lra.
Qed.

(** C2. [discount_cumsum x discount] has the length of [x] and its entry [i]
    is [x[i] + discount * x[i+1] + ... + discount^(n-i) * x[n]]; the discount
    0 gives [x] back, the discount 1 gives the plain suffix sums, and
    [[1,1,1]] gives [[3,2,1]].  Nothing here depends on
    [0 <= discount <= 1]: the equations hold for every real discount. *)
Theorem discount_cumsum_spec (x : list R) (discount : R) :
  length (discount_cumsum x discount) = length x /\
  discount_cumsum x discount = map (disc_sum discount x) (seq 0 (length x)) /\
  discount_cumsum x 0 = x /\
  discount_cumsum x 1 = map (fun i => Rsum (skipn i x)) (seq 0 (length x)) /\
  discount_cumsum [1; 1; 1] 1 = [3; 2; 1] /\
  discount_cumsum [1; 2] (1 / 2) = [2; 2].
Proof.
  split; [apply discount_cumsum_length|].
  split; [apply discount_cumsum_closed|].
  split; [apply discount_cumsum_zero|].
  split; [apply discount_cumsum_one|].
  split.
  - rewrite !discount_cumsum_cons, discount_cumsum_nil. simpl.
    repeat (f_equal; try lra).
  - rewrite !discount_cumsum_cons, discount_cumsum_nil. simpl.
    repeat (f_equal; try lra).
Qed.


(* ===================================================================== *)
(** ** Facts about arrays and slices *)
(* ===================================================================== *)

Lemma array_set_ok {A : Type} (a : list A) (i : nat) (x : A) :
  (i < length a)%nat -> array_set a i x = Ok (<[i := x]> a).
Proof.
  intros Hi. unfold array_set. destruct (decide (i < length a)%nat); [reflexivity|lia].
Qed.

Lemma slice_get_length {A : Type} (start stop : nat) (a : list A) :
  (stop <= length a)%nat -> length (slice_get start stop a) = (stop - start)%nat.
Proof.
  intros H. unfold slice_get. rewrite length_take, length_drop. lia.
Qed.

Lemma slice_get_empty {A : Type} (k : nat) (a : list A) : slice_get k k a = [].
Proof. unfold slice_get. now rewrite Nat.sub_diag. Qed.

Lemma slice_set_length {A : Type} (start stop : nat) (v a : list A) :
  (start <= stop <= length a)%nat -> length v = (stop - start)%nat ->
  length (slice_set start stop v a) = length a.
Proof.
  intros H Hv. unfold slice_set.
  rewrite !length_app, length_take, length_drop. lia.
Qed.

Lemma slice_get_set {A : Type} (start stop : nat) (v a : list A) :
  (start <= stop <= length a)%nat -> length v = (stop - start)%nat ->
  slice_get start stop (slice_set start stop v a) = v.
Proof.
  intros H Hv. unfold slice_get, slice_set.
  rewrite drop_app_length' by (rewrite length_take; lia).
  now rewrite take_app_length'.
Qed.

Lemma slice_set_before {A : Type} (start stop : nat) (v a : list A) :
  (start <= length a)%nat ->
  take start (slice_set start stop v a) = take start a.
Proof.
  intros H. unfold slice_set.
  rewrite take_app_length' by (rewrite length_take; lia). reflexivity.
Qed.

Lemma slice_set_after {A : Type} (start stop : nat) (v a : list A) :
  (start <= stop <= length a)%nat -> length v = (stop - start)%nat ->
  drop stop (slice_set start stop v a) = drop stop a.
Proof.
  intros H Hv. unfold slice_set. rewrite Nat.max_r by lia.
  rewrite app_assoc. apply drop_app_length'.
  rewrite length_app, length_take. lia.
Qed.

Lemma slice_set_empty {A : Type} (k : nat) (a : list A) :
  slice_set k k [] a = a.
Proof. unfold slice_set. rewrite Nat.max_id. simpl. apply take_drop. Qed.

Lemma but_last_snoc {A : Type} (l : list A) (x : A) : but_last (l ++ [x]) = l.
Proof.
  unfold but_last. apply take_app_length'. rewrite length_app. simpl. lia.
Qed.

Lemma zip_with_nth_gen {A B C : Type} (f : A -> B -> C) (da : A) (db : B)
    (x : list A) (y : list B) :
  length x = length y ->
  zip_with f x y = map (fun i => f (nth i x da) (nth i y db)) (seq 0 (length x)).
Proof.
  revert y. induction x as [|a x IH]; intros [|c y] Hlen; try discriminate.
  - reflexivity.
  - simpl. f_equal. rewrite <- seq_shift, map_map. apply IH.
    simpl in Hlen. lia.
Qed.

Lemma zip_with_nth (f : R -> R -> R) (x y : list R) :
  length x = length y ->
  zip_with f x y = map (fun i => f (nth i x 0) (nth i y 0)) (seq 0 (length x)).
Proof. apply zip_with_nth_gen. Qed.

Lemma map_nth_seq (f : R -> R) (x : list R) :
  map f x = map (fun i => f (nth i x 0)) (seq 0 (length x)).
Proof.
  induction x as [|a x IH]; [reflexivity|].
  simpl. f_equal. now rewrite <- seq_shift, map_map.
Qed.

(** The residuals of [end_traj], entry by entry. *)
Lemma deltas_nth (g v : R) (r w : list R) :
  length r = length w ->
  Buffer.deltas g (r ++ [v]) (w ++ [v]) =
  map (fun i => nth i (r ++ [v]) 0 + g * nth (S i) (w ++ [v]) 0
                - nth i (w ++ [v]) 0)
      (seq 0 (length r)).
Proof.
  intros Hlen. unfold Buffer.deltas, vsub, vadd, vscale, but_first.
  rewrite !but_last_snoc.
  assert (Ht : length (map (Rmult g) (drop 1 (w ++ [v]))) = length r).
  { rewrite length_map, length_drop, length_app. simpl. lia. }
  rewrite zip_with_nth by (rewrite length_zip_with; lia).
  rewrite length_zip_with, Ht, Nat.min_id.
  apply map_ext_in. intros i Hi. apply in_seq in Hi.
  rewrite zip_with_nth by lia.
  rewrite (nth_indep _ 0 ((fun i => nth i r 0 + nth i (map (Rmult g) (drop 1 (w ++ [v]))) 0) 0%nat))
    by (rewrite length_map, length_seq; lia).
  rewrite (map_nth (fun i => nth i r 0 + nth i (map (Rmult g) (drop 1 (w ++ [v]))) 0)).
  rewrite seq_nth by lia. simpl Nat.add.
  rewrite (nth_indep (map _ _) 0 (g * 0)) by lia.
  rewrite (map_nth (Rmult g)).
  rewrite nth_skipn. simpl Nat.add.
  rewrite (app_nth1 r [v] 0), (app_nth1 w [v] 0 (n := i)) by lia. reflexivity.
Qed.

(* ===================================================================== *)
(** ** [VPGBuffer.store] *)
(* ===================================================================== *)

Lemma buf_fresh_wf : Buffer.wf buf_fresh.
Proof. split; simpl; lia. Qed.

Lemma buf_two_wf : Buffer.wf buf_two.
Proof. split; simpl; lia. Qed.

Lemma init_wf (obs_dim size : nat) (g l : R) :
  Buffer.wf (Buffer.init obs_dim size g l).
Proof. split; simpl; rewrite ?length_replicate; lia. Qed.

(** With room left, [store] is five in-range writes and one increment. *)
Lemma store_ok (b : VPGBuffer) (obs : Obs) (act : Z) (rew val logp : R) :
  Buffer.wf b -> (ptr b < max_size b)%nat ->
  Buffer.store b obs act rew val logp =
  Ok {| obs_buf := <[ptr b := obs]> (obs_buf b);
        act_buf := <[ptr b := act]> (act_buf b);
        phi_buf := phi_buf b;
        rew_buf := <[ptr b := rew]> (rew_buf b);
        ret_buf := ret_buf b;
        val_buf := <[ptr b := val]> (val_buf b);
        logp_buf := <[ptr b := logp]> (logp_buf b);
        gamma := gamma b;
        lam := lam b;
        ptr := ptr b + 1;
        path_start_idx := path_start_idx b;
        max_size := max_size b |}.
Proof.
  intros [] Hlt. unfold Buffer.store.
  destruct (decide (ptr b < max_size b)%nat); [|lia].
  rewrite !array_set_ok by lia. reflexivity.
Qed.

Lemma store_wf (b b' : VPGBuffer) obs act rew val logp :
  Buffer.wf b -> Buffer.store b obs act rew val logp = Ok b' -> Buffer.wf b'.
Proof.
  intros Hwf Hst.
  destruct (decide (ptr b < max_size b)%nat) as [Hlt|Hge].
  2:{ unfold Buffer.store in Hst.
      destruct (decide (ptr b < max_size b)%nat); [lia|discriminate]. }
  rewrite store_ok in Hst by assumption.
  destruct Hwf. injection Hst as <-.
  split; simpl; rewrite ?length_insert; lia.
Qed.

(** C7. On a buffer that satisfies the data model and whose observation
    rows have [d] entries, for an observation of [d] entries, [store] fails
    exactly when [ptr = max_size]; otherwise it succeeds, writes the
    observation, the action, the reward, the value and the log-probability
    at index [ptr] of their arrays, leaves every other entry and the
    advantage and return arrays alone, increments [ptr] by one, and keeps
    the shape of the observation rows. *)
Theorem store_spec (b : VPGBuffer) (obs : Obs) (act : Z) (rew val logp : R)
    (d : nat) :
  Buffer.wf b -> Buffer.obs_rows d b -> length obs = d ->
  (fails (Buffer.store b obs act rew val logp) <-> ptr b = max_size b) /\
  (ptr b <> max_size b ->
   exists b',
     Buffer.store b obs act rew val logp = Ok b' /\
     ptr b' = S (ptr b) /\
     obs_buf b' = <[ptr b := obs]> (obs_buf b) /\
     act_buf b' = <[ptr b := act]> (act_buf b) /\
     rew_buf b' = <[ptr b := rew]> (rew_buf b) /\
     val_buf b' = <[ptr b := val]> (val_buf b) /\
     logp_buf b' = <[ptr b := logp]> (logp_buf b) /\
     obs_buf b' !! ptr b = Some obs /\
     act_buf b' !! ptr b = Some act /\
     rew_buf b' !! ptr b = Some rew /\
     val_buf b' !! ptr b = Some val /\
     logp_buf b' !! ptr b = Some logp /\
     phi_buf b' = phi_buf b /\
     ret_buf b' = ret_buf b /\
     path_start_idx b' = path_start_idx b /\
     max_size b' = max_size b /\
     Buffer.obs_rows d b').
Proof.
  intros Hwf Hrows Hobs. pose proof Hwf as [].
  split; [split|].
  - intros [e He].
    destruct (decide (ptr b < max_size b)%nat) as [Hlt|Hge]; [|lia].
    rewrite store_ok in He by assumption. discriminate.
  - intros Heq. exists AssertionError. unfold Buffer.store.
    destruct (decide (ptr b < max_size b)%nat); [lia|reflexivity].
  - intros Hne. assert (Hlt : (ptr b < max_size b)%nat) by lia.
    eexists. split; [apply store_ok; assumption|]. simpl.
    repeat (split;
            [first [reflexivity | lia | apply list_lookup_insert_eq; lia]|]).
    unfold Buffer.obs_rows. simpl. apply Forall_insert; assumption.
Qed.

Lemma buf_fresh_rows : Buffer.obs_rows 8 buf_fresh.
Proof. unfold Buffer.obs_rows. simpl. repeat constructor. Qed.

Lemma store_spec_witness :
  Buffer.wf buf_fresh /\ Buffer.obs_rows 8 buf_fresh /\
  length obs_zero = 8%nat /\
  (fails (Buffer.store buf_fresh obs_zero 1%Z 1 2 3) <->
   ptr buf_fresh = max_size buf_fresh).
Proof.
  split; [apply buf_fresh_wf|]. split; [apply buf_fresh_rows|].
  split; [reflexivity|].
  apply (store_spec buf_fresh obs_zero 1%Z 1 2 3 8 buf_fresh_wf
           buf_fresh_rows eq_refl).
Defined.

(* ===================================================================== *)
(** ** [VPGBuffer.end_traj] *)
(* ===================================================================== *)

Lemma end_traj_wf (b : VPGBuffer) (v : R) :
  Buffer.wf b -> Buffer.wf (Buffer.end_traj b v).
Proof.
  intros []. split; simpl; try lia.
  - rewrite slice_set_length; [lia|lia|].
    rewrite length_map, discount_cumsum_length, deltas_nth
      by (rewrite !slice_get_length; lia).
    rewrite length_map, length_seq, slice_get_length; lia.
  - rewrite slice_set_length; [lia|lia|].
    rewrite discount_cumsum_length, but_last_snoc, slice_get_length; lia.
Qed.

(** [end_traj] touches the advantages and returns of the open slice only. *)
Lemma end_traj_frame (b : VPGBuffer) (v : R) :
  Buffer.wf b ->
  let b' := Buffer.end_traj b v in
  take (path_start_idx b) (phi_buf b') = take (path_start_idx b) (phi_buf b) /\
  drop (ptr b) (phi_buf b') = drop (ptr b) (phi_buf b) /\
  take (path_start_idx b) (ret_buf b') = take (path_start_idx b) (ret_buf b) /\
  drop (ptr b) (ret_buf b') = drop (ptr b) (ret_buf b) /\
  obs_buf b' = obs_buf b /\ act_buf b' = act_buf b /\ rew_buf b' = rew_buf b /\
  val_buf b' = val_buf b /\ logp_buf b' = logp_buf b.
Proof.
  intros []. simpl.
  assert (Hd : length (map Fin (discount_cumsum
            (Buffer.deltas (gamma b)
               (slice_get (path_start_idx b) (ptr b) (rew_buf b) ++ [v])
               (slice_get (path_start_idx b) (ptr b) (val_buf b) ++ [v]))
            (gamma b * lam b))) = (ptr b - path_start_idx b)%nat).
  { rewrite length_map, discount_cumsum_length, deltas_nth
      by (rewrite !slice_get_length; lia).
    rewrite length_map, length_seq, slice_get_length; lia. }
  assert (Hr : length (discount_cumsum
            (but_last (slice_get (path_start_idx b) (ptr b) (rew_buf b) ++ [v]))
            (gamma b)) = (ptr b - path_start_idx b)%nat).
  { rewrite discount_cumsum_length, but_last_snoc, slice_get_length; lia. }
  repeat split.
  - apply slice_set_before; lia.
  - apply slice_set_after; [lia|exact Hd].
  - apply slice_set_before; lia.
  - apply slice_set_after; [lia|exact Hr].
Qed.

(** C1. On a buffer that satisfies the data model, with [rews'] and [vals']
    the rewards and values of the open slice [[path_start_idx, ptr)] each
    followed by [last_val], and [delta[i] = rews'[i] + gamma * vals'[i+1] -
    vals'[i]] for every index [i] of the slice: after [end_traj] the
    advantages at the slice are [discount_cumsum delta (gamma * lam)], the
    returns at the slice are [discount_cumsum] of the slice's rewards (the
    appended value left out) at discount [gamma], and
    [path_start_idx = ptr], with [ptr] as before. *)
Theorem end_traj_spec (b : VPGBuffer) (last_val : R) :
  Buffer.wf b ->
  let start := path_start_idx b in
  let stop := ptr b in
  let rews' := slice_get start stop (rew_buf b) ++ [last_val] in
  let vals' := slice_get start stop (val_buf b) ++ [last_val] in
  let delta :=
    map (fun i => nth i rews' 0 + gamma b * nth (S i) vals' 0 - nth i vals' 0)
        (seq 0 (stop - start)) in
  let b' := Buffer.end_traj b last_val in
  slice_get start stop (phi_buf b') =
    map Fin (discount_cumsum delta (gamma b * lam b)) /\
  slice_get start stop (ret_buf b') =
    discount_cumsum (slice_get start stop (rew_buf b)) (gamma b) /\
  path_start_idx b' = ptr b' /\
  ptr b' = ptr b.
Proof.
  intros Hwf. pose proof Hwf as []. intros start stop rews' vals' delta b'.
  assert (Hdelta : Buffer.deltas (gamma b) rews' vals' = delta).
  { unfold rews', vals', delta. rewrite deltas_nth
      by (rewrite !slice_get_length; lia).
    rewrite slice_get_length by lia. reflexivity. }
  assert (Hlen : length delta = (stop - start)%nat).
  { unfold delta. now rewrite length_map, length_seq. }
  repeat split.
  - unfold b'. simpl. fold start stop rews' vals'. rewrite Hdelta.
    apply slice_get_set; [unfold start, stop; lia|].
    now rewrite length_map, discount_cumsum_length.
  - unfold b'. simpl. fold start stop rews'. unfold rews'.
    rewrite but_last_snoc.
    apply slice_get_set; [unfold start, stop; lia|].
    rewrite discount_cumsum_length, slice_get_length; unfold stop; lia.
Qed.

Lemma end_traj_spec_witness :
  Buffer.wf buf_two /\
  path_start_idx (Buffer.end_traj buf_two 5) = ptr (Buffer.end_traj buf_two 5).
Proof.
  split; [apply buf_two_wf|].
  apply (end_traj_spec buf_two 5). split; simpl; lia.
Defined.

(** C10. When the open trajectory is empty ([path_start_idx = ptr]),
    [end_traj] returns the buffer it was given, whatever [last_val] is: the
    seven arrays, [ptr] and [path_start_idx] are all as before. *)
Theorem end_traj_empty (b : VPGBuffer) (last_val : R) :
  path_start_idx b = ptr b -> Buffer.end_traj b last_val = b.
Proof.
  intros Heq. destruct b as [o a p r t w l g lm k s m]. simpl in Heq. subst s.
  unfold Buffer.end_traj. simpl. rewrite !slice_get_empty. simpl.
  unfold Buffer.deltas, but_last, but_first, vsub, vadd, vscale. simpl.
  rewrite discount_cumsum_nil. simpl. rewrite !slice_set_empty. reflexivity.
Qed.

Lemma end_traj_empty_witness : Buffer.end_traj buf_fresh 7 = buf_fresh.
Proof. apply (end_traj_empty buf_fresh 7). reflexivity. Defined.

(* ===================================================================== *)
(** ** Mean and standard deviation *)
(* ===================================================================== *)

Lemma Rzerob_true (r : R) : r = 0 -> Rzerob r = true.
Proof. intros H. unfold Rzerob. destruct (Req_dec_T r 0); [reflexivity|contradiction]. Qed.

Lemma Rzerob_false (r : R) : r <> 0 -> Rzerob r = false.
Proof. intros H. unfold Rzerob. destruct (Req_dec_T r 0); [contradiction|reflexivity]. Qed.

Lemma Rnegb_false (r : R) : 0 <= r -> Rnegb r = false.
Proof. intros H. unfold Rnegb. destruct (Rlt_dec r 0); [lra|reflexivity]. Qed.

Lemma fsum_Fin (xs : list R) : fsum (map Fin xs) = Fin (Rsum xs).
Proof.
  induction xs as [|x xs IH]; [reflexivity|].
  change (fsum (map Fin (x :: xs))) with (fadd (Fin x) (fsum (map Fin xs))).
  now rewrite IH.
Qed.

Lemma INR_length_nonzero {A : Type} (xs : list A) :
  xs <> [] -> INR (length xs) <> 0.
Proof. intros H. apply not_0_INR. destruct xs; [contradiction|discriminate]. Qed.

Lemma np_mean_Fin (xs : list R) :
  xs <> [] -> np_mean (map Fin xs) = Fin (Rmean xs).
Proof.
  intros H. unfold np_mean. rewrite fsum_Fin, length_map. simpl.
  now rewrite Rzerob_false by (apply INR_length_nonzero; assumption).
Qed.

Lemma Rsum_nonneg (xs : list R) : Forall (fun x => 0 <= x) xs -> 0 <= Rsum xs.
Proof.
  induction 1 as [|x xs Hx _ IH]; simpl; lra.
Qed.

Lemma Rsum_zero (xs : list R) :
  Forall (fun x => 0 <= x) xs -> Rsum xs = 0 -> Forall (fun x => x = 0) xs.
Proof.
  induction 1 as [|x xs Hx Hxs IH]; intros Hs; constructor.
  - simpl in Hs. pose proof (Rsum_nonneg xs Hxs). lra.
  - apply IH. simpl in Hs. pose proof (Rsum_nonneg xs Hxs). lra.
Qed.

Lemma sq_dev_nonneg (m : R) (xs : list R) :
  Forall (fun x => 0 <= x) (map (fun x => Rabs (x - m) * Rabs (x - m)) xs).
Proof.
  induction xs as [|x xs IH]; constructor; [|exact IH].
  pose proof (Rabs_pos (x - m)). nra.
Qed.

Lemma Rmean_nonneg (xs : list R) :
  Forall (fun x => 0 <= x) xs -> 0 <= Rmean xs.
Proof.
  intros H. unfold Rmean. destruct xs as [|x xs].
  - simpl. rewrite Rdiv_0_l. lra.
  - apply Rsum_nonneg in H.
    assert (Hn : 0 < INR (length (x :: xs))) by (apply lt_0_INR; simpl; lia).
    unfold Rdiv. apply Rmult_le_pos; [exact H|].
    apply Rlt_le, Rinv_0_lt_compat, Hn.
Qed.

Lemma np_std_Fin (xs : list R) :
  xs <> [] -> np_std (map Fin xs) = Fin (Rstd xs).
Proof.
  intros H. unfold np_std. rewrite np_mean_Fin by assumption.
  rewrite map_map. simpl.
  rewrite <- (map_map (fun x => Rabs (x - Rmean xs) * Rabs (x - Rmean xs)) Fin).
  rewrite np_mean_Fin by (destruct xs; [contradiction|discriminate]).
  simpl. rewrite Rnegb_false; [reflexivity|].
  apply Rmean_nonneg, sq_dev_nonneg.
Qed.

(** A zero standard deviation means every entry is the mean. *)
Lemma Rstd_zero (xs : list R) :
  xs <> [] -> Rstd xs = 0 -> Forall (fun x => x - Rmean xs = 0) xs.
Proof.
  intros Hne Hs. unfold Rstd in Hs.
  pose proof (sq_dev_nonneg (Rmean xs) xs) as Hpos.
  apply sqrt_eq_0 in Hs; [|apply Rmean_nonneg, Hpos].
  unfold Rmean at 1 in Hs. rewrite length_map in Hs.
  assert (Hsum : Rsum (map (fun x => Rabs (x - Rmean xs) * Rabs (x - Rmean xs)) xs) = 0).
  { pose proof (INR_length_nonzero xs Hne) as Hn.
    apply (Rmult_eq_compat_r (INR (length xs))) in Hs.
    unfold Rdiv in Hs. rewrite Rmult_assoc, Rinv_l, Rmult_1_r, Rmult_0_l in Hs;
      assumption. }
  apply Rsum_zero in Hsum; [|exact Hpos].
  rewrite Forall_map in Hsum. eapply Forall_impl; [exact Hsum|].
  intros x Hx. simpl in Hx.
  apply Rmult_integral in Hx.
  destruct (Req_dec (x - Rmean xs) 0) as [|Hnz]; [assumption|].
  apply Rabs_no_R0 in Hnz. destruct Hx; contradiction.
Qed.

(** Equal entries have standard deviation zero. *)
Lemma Rstd_flat (c : R) (xs : list R) :
  Forall (fun x => x = c) xs -> Rstd xs = 0.
Proof.
  intros H. destruct xs as [|x0 xs'] eqn:E.
  - unfold Rstd, Rmean. simpl. rewrite Rdiv_0_l. apply sqrt_0.
  - rewrite <- E in *. assert (Hne : xs <> []) by (rewrite E; discriminate).
    assert (Hsum : forall l, Forall (fun x => x = c) l -> Rsum l = INR (length l) * c).
    { induction 1 as [|y l Hy _ IH]; [simpl; lra|].
      change (Rsum (y :: l)) with (y + Rsum l). rewrite IH, Hy.
      change (length (c :: l)) with (S (length l)). rewrite S_INR. lra. }
    assert (Hm : Rmean xs = c).
    { unfold Rmean. rewrite Hsum by assumption. field.
      now apply INR_length_nonzero. }
    unfold Rstd. rewrite Hm.
    assert (Hz : Rsum (map (fun x => Rabs (x - c) * Rabs (x - c)) xs) = 0).
    { clear -H. induction H as [|y l Hy _ IH]; [reflexivity|].
      simpl. rewrite IH, Hy. replace (c - c) with 0 by lra. rewrite Rabs_R0. lra. }
    unfold Rmean. rewrite Hz, Rdiv_0_l. apply sqrt_0.
Qed.

(** On finite advantages with a non-zero standard deviation, the
    normalisation of [get] is the division of real numbers. *)
Lemma normalise_Fin (xs : list R) :
  Rstd xs <> 0 ->
  map (fun x => fdiv (fsub x (np_mean (map Fin xs))) (np_std (map Fin xs)))
      (map Fin xs) =
  map (fun x => Fin ((x - Rmean xs) / Rstd xs)) xs.
Proof.
  intros Hs. destruct xs as [|x0 xs'] eqn:E; [reflexivity|].
  rewrite <- E in *. assert (Hne : xs <> []) by (rewrite E; discriminate).
  rewrite np_mean_Fin, np_std_Fin by assumption.
  rewrite map_map. apply map_ext. intros x. simpl.
  now rewrite Rzerob_false by assumption.
Qed.

(* ===================================================================== *)
(** ** [VPGBuffer.get] *)
(* ===================================================================== *)

Lemma buf_full_wf : Buffer.wf buf_full.
Proof. split; simpl; lia. Qed.

Lemma get_ok (b : VPGBuffer) :
  ptr b = max_size b ->
  Buffer.get b =
  Ok ({| obs_buf := obs_buf b;
         act_buf := act_buf b;
         phi_buf :=
           map (fun x => fdiv (fsub x (np_mean (phi_buf b))) (np_std (phi_buf b)))
               (phi_buf b);
         rew_buf := rew_buf b;
         ret_buf := ret_buf b;
         val_buf := val_buf b;
         logp_buf := logp_buf b;
         gamma := gamma b;
         lam := lam b;
         ptr := 0;
         path_start_idx := 0;
         max_size := max_size b |},
      {| data_obs := obs_buf b;
         data_act := act_buf b;
         data_ret := ret_buf b;
         data_phi :=
           map (fun x => fdiv (fsub x (np_mean (phi_buf b))) (np_std (phi_buf b)))
               (phi_buf b);
         data_logp := logp_buf b |}).
Proof.
  intros H. unfold Buffer.get. destruct (decide (ptr b = max_size b)); [reflexivity|contradiction].
Qed.

Lemma get_raise (b : VPGBuffer) :
  ptr b <> max_size b -> Buffer.get b = Raise AssertionError.
Proof.
  intros H. unfold Buffer.get. destruct (decide (ptr b = max_size b)); [contradiction|reflexivity].
Qed.

Lemma get_wf (b b' : VPGBuffer) (d : Batch) :
  Buffer.wf b -> Buffer.get b = Ok (b', d) -> Buffer.wf b'.
Proof.
  intros [] Hg. destruct (decide (ptr b = max_size b)) as [Heq|Hne].
  - rewrite get_ok in Hg by assumption. injection Hg as <- <-.
    split; simpl; rewrite ?length_map; lia.
  - rewrite get_raise in Hg by assumption. discriminate.
Qed.

(** C5. [get] fails, with the assertion error that stands for the
    specification's [BufferNotFullError], exactly when [ptr <> max_size].
    When it succeeds, every advantage [x] is replaced by
    [(x - mean) / std], mean and standard deviation taken over the whole
    advantage array (on finite advantages of non-zero deviation this is the
    division of real numbers); [ptr] and [path_start_idx] are 0; the batch
    holds the observations, actions, returns, normalised advantages and
    log-probabilities, each of the full length [max_size]; and on a buffer
    of non-zero capacity a second [get] right after fails. *)
Theorem get_spec (b : VPGBuffer) :
  Buffer.wf b ->
  (Buffer.get b = Raise AssertionError <-> ptr b <> max_size b) /\
  (fails (Buffer.get b) <-> ptr b <> max_size b) /\
  (ptr b = max_size b ->
   exists b' data,
     Buffer.get b = Ok (b', data) /\
     phi_buf b' =
       map (fun x => fdiv (fsub x (np_mean (phi_buf b))) (np_std (phi_buf b)))
           (phi_buf b) /\
     (forall xs, phi_buf b = map Fin xs -> Rstd xs <> 0 ->
        phi_buf b' = map (fun x => Fin ((x - Rmean xs) / Rstd xs)) xs) /\
     ptr b' = 0%nat /\
     path_start_idx b' = 0%nat /\
     data_obs data = obs_buf b /\
     data_act data = act_buf b /\
     data_ret data = ret_buf b /\
     data_phi data = phi_buf b' /\
     data_logp data = logp_buf b /\
     length (data_obs data) = max_size b /\
     length (data_act data) = max_size b /\
     length (data_ret data) = max_size b /\
     length (data_phi data) = max_size b /\
     length (data_logp data) = max_size b /\
     ((0 < max_size b)%nat -> Buffer.get b' = Raise AssertionError)).
Proof.
  intros Hwf. pose proof Hwf as [].
  split; [|split].
  - split.
    + intros Hg Heq. rewrite get_ok in Hg by assumption. discriminate.
    + apply get_raise.
  - split.
    + intros [e Hg] Heq. rewrite get_ok in Hg by assumption. discriminate.
    + intros Hne. exists AssertionError. now apply get_raise.
  - intros Heq. eexists _, _. split; [apply get_ok; assumption|]. simpl.
    repeat split; rewrite ?length_map; try assumption.
    + intros xs Hxs Hs. rewrite Hxs. now apply normalise_Fin.
    + intros Hpos. apply get_raise. simpl. lia.
Qed.

Lemma get_spec_witness :
  Buffer.wf buf_full /\
  (fails (Buffer.get buf_full) <-> ptr buf_full <> max_size buf_full).
Proof.
  split; [apply buf_full_wf|].
  apply (get_spec buf_full). split; simpl; lia.
Defined.

(** Without a full refill the second [get] fails: after a successful [get]
    and fewer than [max_size] calls of [store], with any calls of [end_traj]
    in between, [ptr < max_size]. *)
Lemma get_after_partial_refill (b : VPGBuffer) :
  (ptr b < max_size b)%nat -> Buffer.get b = Raise AssertionError.
Proof. intros H. apply get_raise. lia. Qed.

(* ===================================================================== *)
(** ** [get] on a degenerate epoch *)
(* ===================================================================== *)

Lemma Rstd_flat_two : Rstd [1; 1] = 0.
Proof. apply (Rstd_flat 1). repeat constructor. Qed.

Lemma get_buf_flat :
  exists b',
    Buffer.get buf_flat =
    Ok (b', {| data_obs := [[0]; [0]];
               data_act := [0%Z; 0%Z];
               data_ret := [0; 0];
               data_phi := [NaN; NaN];
               data_logp := [0; 0] |}).
Proof.
  eexists. rewrite get_ok by reflexivity. simpl phi_buf.
  change [Fin 1; Fin 1] with (map Fin [1; 1]).
  rewrite np_mean_Fin, np_std_Fin by discriminate.
  rewrite Rstd_flat_two.
  assert (Hm : Rmean [1; 1] = 1) by (unfold Rmean; simpl; lra).
  rewrite Hm. simpl.
  rewrite (Rzerob_true 0) by reflexivity.
  rewrite (Rzerob_true (1 + Ropp 1)) by lra. reflexivity.
Qed.

(** C6, as the specification states it, fails: on the full buffer
    [buf_flat], whose two advantages are both 1, [get] returns and both
    normalised advantages are NaN. *)
Lemma get_guarded_counterexample : ~ get_guarded buf_flat.
Proof.
  intros (b' & data & Hget & Hall).
  destruct get_buf_flat as [b0 H0]. rewrite H0 in Hget.
  injection Hget as _ <-. simpl in Hall.
  apply Forall_cons in Hall as [Hnan _]. discriminate.
Qed.

(** C6, amended.  [get] does not guard its division.  On every full buffer
    it raises nothing and returns, for each advantage [x], the quotient
    [(x - mean) / std] whose denominator is the standard deviation itself,
    with no floor; a quotient by zero is not finite; and there are full
    buffers of identical advantages, such as two advantages equal to 1, on
    which every normalised advantage, in the buffer and in the batch, is
    NaN. *)
Theorem get_unguarded :
  (forall b : VPGBuffer,
     ptr b = max_size b ->
     exists b' data,
       Buffer.get b = Ok (b', data) /\
       phi_buf b' =
         map (fun x => fdiv (fsub x (np_mean (phi_buf b))) (np_std (phi_buf b)))
             (phi_buf b) /\
       data_phi data = phi_buf b') /\
  (forall x : fl, is_finite (fdiv x (Fin 0)) = false) /\
  (exists b b' data,
     Buffer.wf b /\ ptr b = max_size b /\
     phi_buf b = [Fin 1; Fin 1] /\
     Buffer.get b = Ok (b', data) /\
     phi_buf b' = [NaN; NaN] /\ data_phi data = [NaN; NaN]).
Proof.
  split; [|split].
  - intros b Hfull. eexists _, _. split; [apply get_ok; exact Hfull|].
    split; reflexivity.
  - intros [r|s|]; simpl; [|reflexivity|reflexivity].
    rewrite (Rzerob_true 0) by reflexivity. now destruct (Rzerob r).
  - destruct get_buf_flat as [b' Hget].
    exists buf_flat, b'. eexists. split; [split; simpl; lia|].
    split; [reflexivity|]. split; [reflexivity|].
    split; [exact Hget|]. split; [|reflexivity].
    unfold Buffer.get in Hget.
    destruct (decide (ptr buf_flat = max_size buf_flat)); [|discriminate].
    assert (H := f_equal (fun r => match r with
                                   | Ok (b0, _) => phi_buf b0
                                   | Raise _ => []
                                   end) Hget).
    assert (H' := f_equal (fun r => match r with
                                    | Ok (_, d0) => data_phi d0
                                    | Raise _ => []
                                    end) Hget).
    cbv beta iota in H, H'. rewrite <- H. exact H'.
Qed.

(* ===================================================================== *)
(** ** [MLPActorCritic.step] *)
(* ===================================================================== *)

Section StepFacts.

Context {E : Environment} {T : Torch}.

(** [step] draws twice from the distribution at [state]: it returns the
    second draw as the action and the log-probability of the first. *)
Lemma step_eq (p_pi p_v : params) (s : Obs) (g : rng) :
  step p_pi p_v s g =
  let d := logits_net p_pi s in
  ((fst (sample d (snd (sample d g))), v_net p_v s,
    Some (log_prob d (fst (sample d g)))),
   snd (sample d (snd (sample d g)))).
Proof.
  unfold step, pi_forward. simpl.
  destruct (sample (logits_net p_pi s) g) as [a1 g1]. simpl.
  destruct (sample (logits_net p_pi s) g1) as [a2 g2]. reflexivity.
Qed.

End StepFacts.

Lemma log_prob_differs : log_prob [1; 0; 0; 0] 0 <> log_prob [1; 0; 0; 0] 1.
Proof. unfold log_prob. simpl. lra. Qed.

(** C4 fails on the code.  With logits [[1,0,0,0]] and a random source that
    draws action 0 and then action 1, [step] returns action 1 together with
    the log-probability of action 0, which is not that of action 1. *)
Theorem step_logp_mismatch :
  step (T := torch_const) tt tt obs_zero [0%Z; 1%Z] =
    ((1%Z, 5, Some (log_prob [1; 0; 0; 0] 0)), []) /\
  ~ step_consistent (T := torch_const) tt tt obs_zero [0%Z; 1%Z].
Proof.
  split; [reflexivity|].
  unfold step_consistent. rewrite step_eq. simpl.
  intros H. injection H as H. now apply log_prob_differs.
Qed.

(* ===================================================================== *)
(** ** The agent's monad *)
(* ===================================================================== *)

Section TrainFacts.

Context {E : Environment} {T : Torch}.

Lemma runs_ret {A : Type} (a : A) (ag : Agent) : runs (retM a) ag a ag [].
Proof. split; [reflexivity|]. now rewrite app_nil_r. Qed.

Lemma runs_bind {A B : Type} (c : M A) (k : A -> M B) ag a ag1 evs1 b ag2 evs2 :
  runs c ag a ag1 evs1 -> runs (k a) ag1 b ag2 evs2 ->
  runs (bindM c k) ag b ag2 (evs1 ++ evs2).
Proof.
  intros [Hc Hl1] [Hk Hl2]. split.
  - unfold bindM. now rewrite Hc.
  - now rewrite Hl2, Hl1, app_assoc.
Qed.

Lemma runs_log (ev : Event) (ag : Agent) :
  runs (log ev) ag tt
       {| ag_env := ag_env ag; ag_rng := ag_rng ag; ag_pi := ag_pi ag;
          ag_v := ag_v ag; ag_log := ag_log ag ++ [ev] |} [ev].
Proof. split; reflexivity. Qed.

Lemma runs_reset_env (ag : Agent) :
  exists obs ag',
    runs reset_env ag obs ag' [EvReset] /\
    ag_pi ag' = ag_pi ag /\ ag_v ag' = ag_v ag.
Proof.
  unfold runs, reset_env. destruct (env_reset (ag_env ag)) as [e obs].
  eexists _, _. repeat split.
Qed.

Lemma runs_step_env (a : Z) (ag : Agent) :
  exists ag',
    runs (step_env a) ag (snd (env_step (ag_env ag) a)) ag' [EvEnvStep a] /\
    ag_pi ag' = ag_pi ag /\ ag_v ag' = ag_v ag.
Proof.
  unfold runs, step_env. destruct (env_step (ag_env ag) a) as [e r].
  eexists. repeat split.
Qed.

(** The action and the log-probability that [ac.step(st)] returns. *)
Lemma runs_ac_step (st : Obs) (ag : Agent) :
  exists a lp ag',
    runs (ac_step st) ag (a, v_net (l_params (ag_v ag)) st, Some lp) ag'
         [EvAcStep st] /\
    ag_env ag' = ag_env ag /\ ag_pi ag' = ag_pi ag /\ ag_v ag' = ag_v ag.
Proof.
  unfold runs, ac_step. rewrite step_eq. simpl.
  eexists _, _, _. repeat split.
Qed.

Lemma runs_buf_store (b : VPGBuffer) obs act rew val lp (ag : Agent) :
  Buffer.wf b -> (ptr b < max_size b)%nat ->
  exists b' ag',
    runs (buf_store b obs act rew val (Some lp)) ag b' ag' [EvStore (ptr b)] /\
    Buffer.store b obs act rew val lp = Ok b' /\
    ag_env ag' = ag_env ag /\ ag_pi ag' = ag_pi ag /\ ag_v ag' = ag_v ag.
Proof.
  intros Hwf Hlt. unfold runs, buf_store, bindM, liftM, log. simpl.
  rewrite store_ok by assumption. eexists _, _. repeat split.
Qed.

Lemma runs_buf_end_traj (b : VPGBuffer) (v : R) (ag : Agent) :
  exists ag',
    runs (buf_end_traj b v) ag (Buffer.end_traj b v) ag' [EvEndTraj (ptr b) v] /\
    ag_env ag' = ag_env ag /\ ag_pi ag' = ag_pi ag /\ ag_v ag' = ag_v ag.
Proof.
  unfold runs, buf_end_traj, bindM, log, retM. simpl.
  eexists. repeat split.
Qed.

Lemma runs_buf_get (b : VPGBuffer) (ag : Agent) :
  ptr b = max_size b ->
  exists b' data ag',
    runs (buf_get b) ag (b', data) ag' [EvGet (ptr b) (max_size b)] /\
    Buffer.get b = Ok (b', data) /\
    ag_pi ag' = ag_pi ag /\ ag_v ag' = ag_v ag.
Proof.
  intros Hfull. unfold runs, buf_get, bindM, liftM, log. simpl.
  rewrite get_ok by assumption. eexists _, _, _. repeat split.
Qed.

(** The value handed to [end_traj]: the critic's estimate at [st] when the
    epoch ended, and 0 otherwise. *)
Lemma runs_bootstrap_value (epoch_ended : bool) (st : Obs) (ag : Agent) :
  exists ag',
    runs (bootstrap_value epoch_ended st) ag
         (if epoch_ended then v_net (l_params (ag_v ag)) st else 0) ag'
         (if epoch_ended then [EvAcStep st] else []) /\
    ag_env ag' = ag_env ag /\ ag_pi ag' = ag_pi ag /\ ag_v ag' = ag_v ag.
Proof.
  destruct epoch_ended; unfold bootstrap_value.
  - destruct (runs_ac_step st ag) as (a & lp & ag' & Hr & He & Hp & Hv).
    exists ag'. repeat split; try assumption.
    + unfold bindM. destruct Hr as [-> _]. reflexivity.
    + apply Hr.
  - exists ag. repeat split. simpl. now rewrite app_nil_r.
Qed.

(* ------------------------------------------------------------------- *)
(** *** One step of collection *)
(* ------------------------------------------------------------------- *)

(** One iteration of the inner loop, in full: the calls it makes, the value
    it hands to [end_traj], and the buffer it leaves. *)
Lemma train_step_trace (steps mel t : nat) (l : Locals) (ag : Agent) :
  Buffer.wf (buf l) -> (ptr (buf l) < max_size (buf l))%nat ->
  exists a lp ns r terminal truncated b1 l' ag',
    snd (env_step (ag_env ag) a) = (ns, r, terminal, truncated) /\
    Buffer.store (buf l) (state l) a r
                 (v_net (l_params (ag_v ag)) (state l)) lp = Ok b1 /\
    let timeout := Nat.eqb (ep_len l + 1) mel in
    let epoch_ended := Nat.eqb t (steps - 1) in
    let closing := terminal || timeout || epoch_ended in
    let last_val :=
      if epoch_ended then v_net (l_params (ag_v ag)) ns else 0 in
    runs (train_step steps mel t l) ag l' ag'
      ([EvAcStep (state l); EvEnvStep a; EvStore (ptr (buf l))]
       ++ (if closing then
             (if epoch_ended then [EvAcStep ns] else [])
             ++ [EvEndTraj (ptr b1) last_val; EvReset]
           else [])) /\
    buf l' = (if closing then Buffer.end_traj b1 last_val else b1) /\
    ag_pi ag' = ag_pi ag /\ ag_v ag' = ag_v ag.
Proof.
  intros Hwf Hlt.
  destruct (runs_ac_step (state l) ag) as (a & lp & ag1 & [Hc1 Hl1] & He1 & Hp1 & Hv1).
  destruct (runs_step_env a ag1) as (ag2 & [Hc2 Hl2] & Hp2 & Hv2).
  rewrite He1 in Hc2.
  destruct (snd (env_step (ag_env ag) a)) as [[[ns r] terminal] truncated] eqn:Henv.
  destruct (runs_buf_store (buf l) (state l) a r
              (v_net (l_params (ag_v ag)) (state l)) lp ag2 Hwf Hlt)
    as (b1 & ag3 & [Hc3 Hl3] & Hst & He3 & Hp3 & Hv3).
  set (timeout := Nat.eqb (ep_len l + 1) mel).
  set (epoch_ended := Nat.eqb t (steps - 1)).
  destruct (runs_bootstrap_value epoch_ended ns ag3)
    as (ag4 & [Hc4 Hl4] & He4 & Hp4 & Hv4).
  destruct (runs_buf_end_traj b1
              (if epoch_ended then v_net (l_params (ag_v ag3)) ns else 0) ag4)
    as (ag5 & [Hc5 Hl5] & He5 & Hp5 & Hv5).
  destruct (runs_reset_env ag5) as (obs & ag6 & [Hc6 Hl6] & Hp6 & Hv6).
  assert (Hvv : ag_v ag3 = ag_v ag) by congruence.
  destruct (terminal || timeout || epoch_ended) eqn:Hclose.
  - exists a, lp, ns, r, terminal, truncated, b1. eexists _, ag6.
    split; [exact Henv|]. split; [exact Hst|]. cbv zeta.
    fold timeout epoch_ended. rewrite Hclose.
    split; [split|].
    + unfold train_step, bindM. rewrite Hc1, Hc2, Hc3.
      fold timeout epoch_ended. rewrite Hclose, Hc4, Hc5, Hc6. reflexivity.
    + rewrite Hl6, Hl5, Hl4, Hl3, Hl2, Hl1, Hvv.
      rewrite <- !app_assoc. reflexivity.
    + simpl. rewrite Hvv. split; [reflexivity|]. split; congruence.
  - exists a, lp, ns, r, terminal, truncated, b1. eexists _, ag3.
    split; [exact Henv|]. split; [exact Hst|]. cbv zeta.
    fold timeout epoch_ended. rewrite Hclose.
    split; [split|].
    + unfold train_step, bindM. rewrite Hc1, Hc2, Hc3.
      fold timeout epoch_ended. rewrite Hclose. reflexivity.
    + rewrite Hl3, Hl2, Hl1. rewrite <- !app_assoc. reflexivity.
    + simpl. split; [reflexivity|]. split; congruence.
Qed.

Lemma store_ptrs_app (evs1 evs2 : list Event) :
  store_ptrs (evs1 ++ evs2) = store_ptrs evs1 ++ store_ptrs evs2.
Proof.
  induction evs1 as [|ev evs1 IH]; [reflexivity|].
  destruct ev; simpl; now rewrite ?IH.
Qed.

Lemma store_ptr_next (b b' : VPGBuffer) obs act rew val logp :
  Buffer.store b obs act rew val logp = Ok b' ->
  ptr b' = S (ptr b) /\ max_size b' = max_size b /\
  path_start_idx b' = path_start_idx b.
Proof.
  unfold Buffer.store, array_set, bind. intros H.
  repeat match type of H with
         | context [decide ?P] => destruct (decide P); try discriminate
         end.
  injection H as <-. simpl. repeat split. lia.
Qed.

(** What one step of collection leaves behind. *)
Lemma train_step_inv (steps mel t : nat) (l : Locals) (ag : Agent) :
  Buffer.wf (buf l) -> (ptr (buf l) < max_size (buf l))%nat ->
  exists l' ag' evs,
    runs (train_step steps mel t l) ag l' ag' evs /\
    Buffer.wf (buf l') /\
    ptr (buf l') = S (ptr (buf l)) /\
    max_size (buf l') = max_size (buf l) /\
    store_ptrs evs = [ptr (buf l)] /\
    forallb collecting evs = true /\
    (t = (steps - 1)%nat ->
     exists pre v, evs = pre ++ [EvEndTraj (S (ptr (buf l))) v; EvReset]) /\
    (t = (steps - 1)%nat -> path_start_idx (buf l') = ptr (buf l')) /\
    ag_pi ag' = ag_pi ag /\ ag_v ag' = ag_v ag /\
    step_run steps mel t l ag l' ag' evs.
Proof.
  intros Hwf Hlt.
  destruct (train_step_trace steps mel t l ag Hwf Hlt)
    as (a & lp & ns & r & terminal & truncated & b1 & l' & ag' & Henv & Hst
        & Hrun & Hbuf & Hpi & Hv).
  cbv zeta in Hrun, Hbuf.
  assert (Hstep : step_run steps mel t l ag l' ag'
            ([EvAcStep (state l); EvEnvStep a; EvStore (ptr (buf l))]
             ++ (if terminal || Nat.eqb (ep_len l + 1) mel
                    || Nat.eqb t (steps - 1)
                 then
                   (if Nat.eqb t (steps - 1) then [EvAcStep ns] else [])
                   ++ [EvEndTraj (ptr b1)
                         (if Nat.eqb t (steps - 1)
                          then v_net (l_params (ag_v ag)) ns else 0);
                       EvReset]
                 else []))).
  { exists a, lp, ns, r, terminal, truncated, b1.
    split; [exact Henv|]. split; [exact Hst|]. cbv zeta.
    split; [exact Hbuf|]. split; [reflexivity|].
    split; [exact Hpi|]. split; [exact Hv|exact Hrun]. }
  pose proof (store_wf _ _ _ _ _ _ _ Hwf Hst) as Hwf1.
  destruct (store_ptr_next _ _ _ _ _ _ _ Hst) as (Hp1 & Hm1 & _).
  eexists l', ag', _. split; [exact Hrun|].
  destruct (terminal || Nat.eqb (ep_len l + 1) mel || Nat.eqb t (steps - 1)) eqn:Hclose.
  - rewrite Hbuf. split; [now apply end_traj_wf|].
    split; [exact Hp1|]. split; [exact Hm1|].
    split; [|split; [|split; [|split; [|split]]]].
    + rewrite store_ptrs_app. simpl.
      destruct (Nat.eqb t (steps - 1)); reflexivity.
    + destruct (Nat.eqb t (steps - 1)); reflexivity.
    + intros ->. rewrite Nat.eqb_refl, Hp1.
      eexists (_ ++ _), _. rewrite <- app_assoc. reflexivity.
    + intros _. reflexivity.
    + exact Hpi.
    + split; [exact Hv|exact Hstep].
  - rewrite Hbuf. split; [exact Hwf1|].
    split; [exact Hp1|]. split; [exact Hm1|].
    split; [reflexivity|]. split; [reflexivity|].
    split; [|split; [|split; [exact Hpi|split; [exact Hv|]]]].
    + intros ->. rewrite Nat.eqb_refl, !orb_true_r in Hclose. discriminate.
    + intros ->. rewrite Nat.eqb_refl, !orb_true_r in Hclose. discriminate.
    + exact Hstep.
Qed.

(* ------------------------------------------------------------------- *)
(** *** The inner loop *)
(* ------------------------------------------------------------------- *)

Lemma collect_loop (steps mel : nat) :
  forall (n start : nat) (l : Locals) (ag : Agent),
    Buffer.wf (buf l) -> ptr (buf l) = start ->
    (start + n <= max_size (buf l))%nat ->
    exists l' ag' evs,
      runs (for_range n start (train_step steps mel) l) ag l' ag' evs /\
      Buffer.wf (buf l') /\
      ptr (buf l') = (start + n)%nat /\
      max_size (buf l') = max_size (buf l) /\
      store_ptrs evs = seq start n /\
      forallb collecting evs = true /\
      (n = 0%nat -> evs = [] /\ l' = l) /\
      ((0 < n)%nat -> (start + n)%nat = steps ->
       (exists pre v, evs = pre ++ [EvEndTraj steps v; EvReset]) /\
       path_start_idx (buf l') = ptr (buf l')) /\
      ag_pi ag' = ag_pi ag /\ ag_v ag' = ag_v ag /\
      steps_run steps mel n start l ag l' ag' evs.
Proof.
  induction n as [|n IH]; intros start l ag Hwf Hptr Hle.
  - exists l, ag, []. split; [apply runs_ret|].
    split; [exact Hwf|]. split; [lia|].
    repeat (split; [first [reflexivity | lia | intros; split; reflexivity
                          | intros; lia]|]).
    constructor.
  - destruct (train_step_inv steps mel start l ag Hwf ltac:(lia))
      as (l1 & ag1 & evs1 & Hr1 & Hwf1 & Hp1 & Hm1 & Hs1 & Hc1 & Hlast1
          & Hstart1 & Hpi1 & Hv1 & Hstep1).
    destruct (IH (S start) l1 ag1 Hwf1 ltac:(lia) ltac:(lia))
      as (l2 & ag2 & evs2 & Hr2 & Hwf2 & Hp2 & Hm2 & Hs2 & Hc2 & Hnil2
          & Hlast2 & Hpi2 & Hv2 & Hsteps2).
    exists l2, ag2, (evs1 ++ evs2).
    split; [exact (runs_bind _ _ _ _ _ _ _ _ _ Hr1 Hr2)|].
    split; [exact Hwf2|]. split; [lia|]. split; [congruence|].
    split; [|split; [|split; [|split; [|split; [congruence|split;
      [congruence|exact (steps_next _ _ _ _ _ _ _ _ _ _ _ _ Hstep1 Hsteps2)]]]]]].
    + rewrite store_ptrs_app, Hs1, Hs2, Hptr. reflexivity.
    + now rewrite forallb_app, Hc1, Hc2.
    + discriminate.
    + intros _ Hend. destruct n as [|n'].
      * destruct (Hnil2 eq_refl) as [-> ->]. rewrite app_nil_r.
        split; [|apply Hstart1; lia].
        destruct (Hlast1 ltac:(lia)) as (pre & v & ->).
        exists pre, v. do 3 f_equal. lia.
      * destruct (Hlast2 ltac:(lia) ltac:(lia)) as ((pre & v & ->) & Hst2).
        split; [|exact Hst2].
        exists (evs1 ++ pre), v. now rewrite app_assoc.
Qed.

(* ------------------------------------------------------------------- *)
(** *** The two updates *)
(* ------------------------------------------------------------------- *)

Lemma runs_pi_update (data : Batch) (ag : Agent) :
  data_obs data <> [] ->
  exists ag',
    runs (pi_update data) ag tt ag' [EvPiUpdate; EvPiOptStep] /\
    ag_pi ag' =
      learner_step (learner_backward (pi_loss data)
                                     (learner_zero_grad (ag_pi ag))) /\
    ag_v ag' = ag_v ag /\ ag_env ag' = ag_env ag /\ ag_rng ag' = ag_rng ag.
Proof.
  intros Hne.
  destruct (data_obs data) as [|o os] eqn:Eo; [contradiction|].
  eexists. split; [split|]; [| |].
  - unfold pi_update, bindM. simpl. rewrite Eo. reflexivity.
  - simpl. rewrite <- app_assoc. reflexivity.
  - repeat split.
Qed.

(** On a batch of no row [pi_update] raises before any optimizer step. *)
Lemma pi_update_empty (data : Batch) (ag : Agent) :
  data_obs data = [] -> pi_update data ag = Raise RuntimeError.
Proof. intros Eo. unfold pi_update, bindM. simpl. rewrite Eo. reflexivity. Qed.

Lemma runs_v_loop (data : Batch) :
  forall (n start : nat) (ag : Agent),
    exists ag',
      runs (for_range n start (v_update_iter data) tt) ag tt ag'
           (replicate n EvVOptStep) /\
      ag_pi ag' = ag_pi ag /\
      ag_v ag' =
        Nat.iter n (fun l => learner_step (learner_backward (v_loss data) l))
                 (ag_v ag).
Proof.
  induction n as [|n IH]; intros start ag.
  - exists ag. split; [apply runs_ret|split; reflexivity].
  - set (ag1 :=
      {| ag_env := ag_env ag; ag_rng := ag_rng ag; ag_pi := ag_pi ag;
         ag_v := learner_step (learner_backward (v_loss data) (ag_v ag));
         ag_log := ag_log ag ++ [EvVOptStep] |}).
    destruct (IH (S start) ag1) as (ag' & [Hc Hl] & Hp & Hv).
    exists ag'. split; [split|split].
    + simpl. unfold bindM at 1. simpl. exact Hc.
    + rewrite Hl. simpl. now rewrite <- app_assoc.
    + exact Hp.
    + rewrite Hv, Nat.iter_succ_r. reflexivity.
Qed.

Lemma runs_get_v (ag : Agent) : runs get_v ag (ag_v ag) ag [].
Proof. split; [reflexivity|]. now rewrite app_nil_r. Qed.

Lemma runs_set_v (l : Learner) (ag : Agent) :
  runs (set_v l) ag tt
       {| ag_env := ag_env ag; ag_rng := ag_rng ag; ag_pi := ag_pi ag;
          ag_v := l; ag_log := ag_log ag |} [].
Proof. split; [reflexivity|]. simpl. now rewrite app_nil_r. Qed.

Lemma runs_v_update (data : Batch) (ag : Agent) :
  exists ag',
    runs (v_update data) ag tt ag' (EvVUpdate :: replicate 100 EvVOptStep) /\
    ag_pi ag' = ag_pi ag /\
    ag_v ag' =
      Nat.iter 100 (fun l => learner_step (learner_backward (v_loss data) l))
               (learner_zero_grad (ag_v ag)).
Proof.
  set (ag0 :=
    {| ag_env := ag_env ag; ag_rng := ag_rng ag; ag_pi := ag_pi ag;
       ag_v := ag_v ag; ag_log := ag_log ag ++ [EvVUpdate] |}).
  set (ag1 :=
    {| ag_env := ag_env ag0; ag_rng := ag_rng ag0; ag_pi := ag_pi ag0;
       ag_v := learner_zero_grad (ag_v ag0); ag_log := ag_log ag0 |}).
  destruct (runs_v_loop data 100 0 ag1) as (ag' & Hr & Hp & Hv).
  exists ag'. split; [|split; [exact Hp|exact Hv]].
  assert (H : runs (v_update data) ag tt ag'
                ([EvVUpdate] ++ [] ++ [] ++ replicate 100 EvVOptStep)).
  { unfold v_update.
    eapply runs_bind; [apply runs_log|].
    eapply runs_bind; [apply runs_get_v|].
    eapply runs_bind; [apply runs_set_v|].
    exact Hr. }
  exact H.
Qed.

(* ------------------------------------------------------------------- *)
(** *** One epoch, and all of them *)
(* ------------------------------------------------------------------- *)

Lemma collecting_no_pi_opt_step (evs : list Event) :
  forallb collecting evs = true -> count_events is_pi_opt_step evs = 0%nat.
Proof.
  unfold count_events. induction evs as [|ev evs IH]; [reflexivity|].
  simpl. intros H. apply andb_prop in H as [Hev Hevs].
  destruct ev; try discriminate; simpl; now apply IH.
Qed.

Lemma count_events_app (p : Event -> bool) (evs1 evs2 : list Event) :
  count_events p (evs1 ++ evs2) =
  (count_events p evs1 + count_events p evs2)%nat.
Proof. unfold count_events. now rewrite List.filter_app, length_app. Qed.

Lemma count_replicate_v_opt_step (n : nat) :
  count_events is_pi_opt_step (replicate n EvVOptStep) = 0%nat.
Proof. induction n as [|n IH]; [reflexivity|exact IH]. Qed.

Lemma epoch_shape_one_pi_step (steps : nat) (evs : list Event) :
  epoch_shape steps evs -> count_events is_pi_opt_step evs = 1%nat.
Proof.
  intros (pre & v & -> & Hpre & _).
  rewrite count_events_app, (collecting_no_pi_opt_step pre Hpre).
  unfold epoch_tail. rewrite !count_events_app, count_replicate_v_opt_step.
  reflexivity.
Qed.

Lemma get_batch (b b' : VPGBuffer) (data : Batch) :
  Buffer.wf b -> Buffer.get b = Ok (b', data) ->
  data_obs data = obs_buf b /\ data_act data = act_buf b /\
  length (data_obs data) = max_size b /\
  length (data_act data) = max_size b /\
  length (data_phi data) = max_size b.
Proof.
  intros [] Hget. destruct (decide (ptr b = max_size b)) as [Heq|Hne].
  - rewrite get_ok in Hget by assumption. injection Hget as _ <-. simpl.
    rewrite length_map. repeat split; assumption.
  - rewrite get_raise in Hget by assumption. discriminate.
Qed.

(** One epoch of at least one step runs to its end, and does to the
    buffer and to the two networks what [epoch_run] says. *)
Lemma epoch_run_exists (steps mel epoch : nat) (l : Locals) (ag : Agent) :
  Buffer.wf (buf l) -> ptr (buf l) = 0%nat -> max_size (buf l) = steps ->
  (0 < steps)%nat ->
  exists l' ag' evs,
    epoch_run steps mel epoch l ag l' ag' evs /\
    epoch_shape steps evs /\
    Buffer.wf (buf l') /\ ptr (buf l') = 0%nat /\ max_size (buf l') = steps.
Proof.
  intros Hwf Hptr Hmax Hpos.
  set (l0 := {| buf := buf l; state := state l; ep_ret := ep_ret l;
                ep_len := ep_len l; ep_returns := [] |}).
  destruct (collect_loop steps mel steps 0 l0 ag Hwf Hptr ltac:(simpl; lia))
    as (l1 & ag1 & evs1 & Hr1 & Hwf1 & Hp1 & Hm1 & Hs1 & Hc1 & _ & Hlast1
        & Hpi1 & Hv1 & Hsteps1).
  simpl in Hp1, Hm1.
  destruct (Hlast1 Hpos eq_refl) as ((pre & v & Hevs1) & Hstart1).
  destruct (runs_buf_get (buf l1) ag1 ltac:(lia))
    as (b2 & data & ag2 & Hr2 & Hget & Hpi2 & Hv2).
  destruct (get_batch _ _ _ Hwf1 Hget) as (_ & _ & Ho & _).
  assert (Hne : data_obs data <> []).
  { intros Eo. rewrite Eo in Ho. simpl in Ho. lia. }
  destruct (runs_pi_update data ag2 Hne) as (ag3 & Hr3 & Hpi3 & Hv3 & _).
  destruct (runs_v_update data ag3) as (ag4 & Hr4 & Hpi4 & Hv4).
  assert (Hrun :
    runs (train_epoch steps mel epoch l) ag
         {| buf := b2; state := state l1; ep_ret := ep_ret l1;
            ep_len := ep_len l1; ep_returns := ep_returns l1 |} ag4
         (evs1 ++ epoch_tail steps)).
  { assert (H : runs (train_epoch steps mel epoch l) ag
                  {| buf := b2; state := state l1; ep_ret := ep_ret l1;
                     ep_len := ep_len l1; ep_returns := ep_returns l1 |} ag4
                  (evs1 ++ [EvGet (ptr (buf l1)) (max_size (buf l1))]
                   ++ [EvPiUpdate; EvPiOptStep]
                   ++ (EvVUpdate :: replicate 100 EvVOptStep) ++ [])).
    { unfold train_epoch. fold l0.
      eapply runs_bind; [exact Hr1|].
      eapply runs_bind; [exact Hr2|]. cbv beta iota.
      eapply runs_bind; [exact Hr3|].
      eapply runs_bind; [exact Hr4|]. apply runs_ret. }
    rewrite Hp1, Hm1, Hmax, app_nil_r in H. exact H. }
  exists {| buf := b2; state := state l1; ep_ret := ep_ret l1;
            ep_len := ep_len l1; ep_returns := ep_returns l1 |}, ag4,
         (evs1 ++ epoch_tail steps).
  split; [|split].
  - exists l1, ag1, evs1, b2, data. split; [exact Hsteps1|].
    split; [exact Hr1|]. split; [exact Hpi1|]. split; [exact Hv1|].
    split; [exact Hp1|]. split; [lia|]. split; [lia|].
    split; [exact Hget|]. split; [reflexivity|].
    split; [rewrite Hpi4, Hpi3; congruence|].
    split; [rewrite Hv4; congruence|].
    split; [reflexivity|exact Hrun].
  - exists pre, v. rewrite Hevs1. split; [|split].
    + rewrite <- !app_assoc. reflexivity.
    + rewrite Hevs1, forallb_app in Hc1. now apply andb_prop in Hc1 as [-> _].
    + rewrite Hevs1, store_ptrs_app in Hs1. simpl in Hs1.
      now rewrite app_nil_r in Hs1.
  - simpl. pose proof (get_wf _ _ _ Hwf1 Hget) as Hwf2.
    rewrite get_ok in Hget by lia. injection Hget as <- _.
    split; [exact Hwf2|]. simpl. split; [reflexivity|]. lia.
Qed.

Lemma epoch_run_runs (steps mel epoch : nat) l ag l' ag' evs :
  epoch_run steps mel epoch l ag l' ag' evs ->
  runs (train_epoch steps mel epoch l) ag l' ag' evs.
Proof. intros (l1 & ag1 & evs1 & b2 & data & H). apply H. Qed.

Lemma runs_train_epoch (steps mel epoch : nat) (l : Locals) (ag : Agent) :
  Buffer.wf (buf l) -> ptr (buf l) = 0%nat -> max_size (buf l) = steps ->
  (0 < steps)%nat ->
  exists l' ag' evs,
    runs (train_epoch steps mel epoch l) ag l' ag' evs /\
    epoch_shape steps evs /\
    Buffer.wf (buf l') /\ ptr (buf l') = 0%nat /\ max_size (buf l') = steps.
Proof.
  intros Hwf Hptr Hmax Hpos.
  destruct (epoch_run_exists steps mel epoch l ag Hwf Hptr Hmax Hpos)
    as (l' & ag' & evs & Hep & Hrest).
  exists l', ag', evs. split; [exact (epoch_run_runs _ _ _ _ _ _ _ _ Hep)|].
  exact Hrest.
Qed.

(** Epochs in a row: each does what [epoch_run] says, from the state the
    one before left. *)
Lemma epochs_run_exists (steps mel : nat) :
  (0 < steps)%nat ->
  forall (n start : nat) (l : Locals) (ag : Agent),
    Buffer.wf (buf l) -> ptr (buf l) = 0%nat -> max_size (buf l) = steps ->
    exists l' ag' evss,
      epochs_run steps mel start l ag l' ag' evss /\
      runs (for_range n start (train_epoch steps mel) l) ag l' ag'
           (concat evss) /\
      length evss = n /\
      Forall (epoch_shape steps) evss.
Proof.
  intros Hpos. induction n as [|n IH]; intros start l ag Hwf Hptr Hmax.
  - exists l, ag, []. split; [constructor|]. split; [apply runs_ret|].
    split; [reflexivity|constructor].
  - destruct (epoch_run_exists steps mel start l ag Hwf Hptr Hmax Hpos)
      as (l1 & ag1 & evs1 & Hep & Hshape & Hwf1 & Hp1 & Hm1).
    destruct (IH (S start) l1 ag1 Hwf1 Hp1 Hm1)
      as (l2 & ag2 & evss & Hch & Hr2 & Hlen & Hall).
    exists l2, ag2, (evs1 :: evss). split; [|split; [|split]].
    + exact (epochs_next _ _ _ _ _ _ _ _ _ _ _ Hep Hch).
    + simpl.
      exact (runs_bind _ _ _ _ _ _ _ _ _ (epoch_run_runs _ _ _ _ _ _ _ _ Hep) Hr2).
    + simpl. now rewrite Hlen.
    + now constructor.
Qed.

(** [train]: the first reset, then the epochs in a row. *)
Lemma train_with_epochs (steps epochs mel : nat) (g lm : R) (ag : Agent) :
  (0 < steps)%nat ->
  exists obs ag0 l' ag' evss,
    runs reset_env ag obs ag0 [EvReset] /\
    epochs_run steps mel 0
      {| buf := Buffer.init 8 steps g lm; state := obs; ep_ret := 0;
         ep_len := 0; ep_returns := [] |} ag0 l' ag' evss /\
    runs (train_with steps epochs mel g lm) ag true ag'
         (EvReset :: concat evss) /\
    length evss = epochs /\
    Forall (epoch_shape steps) evss.
Proof.
  intros Hpos.
  destruct (runs_reset_env ag) as (obs & ag1 & Hr1 & _).
  destruct (epochs_run_exists steps mel Hpos epochs 0
              {| buf := Buffer.init 8 steps g lm; state := obs; ep_ret := 0;
                 ep_len := 0; ep_returns := [] |} ag1
              (init_wf 8 steps g lm) eq_refl eq_refl)
    as (l' & ag' & evss & Hch & Hr2 & Hlen & Hall).
  exists obs, ag1, l', ag', evss.
  split; [exact Hr1|]. split; [exact Hch|]. split; [|split; assumption].
  unfold train_with.
  change (EvReset :: concat evss) with ([EvReset] ++ concat evss).
  eapply runs_bind; [exact Hr1|].
  rewrite <- (app_nil_r (concat evss)).
  eapply runs_bind; [exact Hr2|]. apply runs_ret.
Qed.


(* ------------------------------------------------------------------- *)
(** *** The policy loss *)
(* ------------------------------------------------------------------- *)

Lemma nth_map_seq {A : Type} (g : nat -> A) (d : A) (n i : nat) :
  (i < n)%nat -> nth i (map g (seq 0 n)) d = g i.
Proof.
  intros Hi. rewrite (nth_indep _ d (g 0%nat)) by (rewrite length_map, length_seq; lia).
  rewrite (map_nth g). now rewrite seq_nth.
Qed.

(** The loss, sample by sample. *)
Lemma pi_loss_nth (data : Batch) (p : params) (n : nat) :
  length (data_obs data) = n -> length (data_act data) = n ->
  length (data_phi data) = n ->
  pi_loss data p =
  fneg (np_mean (map (fun i => fmul (nth i (data_phi data) NaN)
                                    (Fin (batch_logp_at data p i)))
                     (seq 0 n))).
Proof.
  intros Ho Ha Hp. unfold pi_loss, batch_log_prob. do 2 f_equal.
  rewrite (zip_with_nth_gen (fun o a => log_prob (logits_net p o) a)
             ([] : Obs) 0%Z) by congruence.
  rewrite map_map, Ho.
  rewrite (zip_with_nth_gen _ NaN NaN) by (rewrite length_map, length_seq; congruence).
  rewrite Hp. apply map_ext_in. intros i Hi. apply in_seq in Hi.
  rewrite nth_map_seq by lia. reflexivity.
Qed.

(** On finite advantages the loss is a real number: minus the mean of
    [advantage * log-probability]. *)
Lemma pi_loss_finite (data : Batch) (p : params) (n : nat) (advs : list R) :
  length (data_obs data) = n -> length (data_act data) = n ->
  length (data_phi data) = n -> (0 < n)%nat ->
  data_phi data = map Fin advs ->
  pi_loss data p =
  Fin (- (Rsum (map (fun i => nth i advs 0 * batch_logp_at data p i) (seq 0 n))
          / INR n)).
Proof.
  intros Ho Ha Hp Hn Hphi. rewrite (pi_loss_nth data p n) by assumption.
  rewrite Hphi.
  rewrite (map_ext_in _ (fun i => Fin (nth i advs 0 * batch_logp_at data p i))).
  2:{ intros i Hi. apply in_seq in Hi.
      rewrite (nth_indep _ NaN (Fin 0))
        by (rewrite <- Hphi; lia).
      now rewrite (map_nth Fin). }
  rewrite <- (map_map (fun i => nth i advs 0 * batch_logp_at data p i) Fin).
  rewrite np_mean_Fin.
  - simpl. unfold Rmean. now rewrite length_map, length_seq.
  - destruct n; [lia|discriminate].
Qed.

End TrainFacts.

(* ===================================================================== *)
(** ** [Agent.pi_update] and [Agent.train] *)
(* ===================================================================== *)

Section TrainTheorems.

Context {E : Environment} {T : Torch}.

(** C8. For a batch returned by [get] on a buffer of [n = max_size > 0]
    samples: the loss of [pi_update] is minus the mean over the batch of
    [advantage * log-probability], the log-probability of each stored action
    taken under the parameters the loss is evaluated at (a real number when
    the advantages are finite); [pi_update] evaluates it at the agent's
    current policy parameters and makes one optimizer step, from a zeroed
    gradient, leaving the critic alone.  And in every epoch of [train] the
    policy that the epoch leaves is the policy it started with after exactly
    one such step, taken on the batch that [get] returned for the buffer the
    epoch has just filled. *)
Theorem pi_update_spec (b b' : VPGBuffer) (data : Batch) (ag : Agent) :
  Buffer.wf b -> Buffer.get b = Ok (b', data) -> (0 < max_size b)%nat ->
  let n := max_size b in
  (forall p,
     pi_loss data p =
     fneg (np_mean (map (fun i => fmul (nth i (data_phi data) NaN)
                                       (Fin (batch_logp_at data p i)))
                        (seq 0 n)))) /\
  (forall p advs,
     data_phi data = map Fin advs ->
     pi_loss data p =
     Fin (- (Rsum (map (fun i => nth i advs 0 * batch_logp_at data p i)
                       (seq 0 n)) / INR n))) /\
  (exists ag',
     runs (pi_update data) ag tt ag' [EvPiUpdate; EvPiOptStep] /\
     ag_pi ag' =
       learner_step (learner_backward (pi_loss data)
                                      (learner_zero_grad (ag_pi ag))) /\
     l_params (ag_pi ag') =
       fst (adam_step (l_opt (ag_pi ag)) (l_params (ag_pi ag))
              (backward (pi_loss data) (l_params (ag_pi ag)) zero_grad)) /\
     ag_v ag' = ag_v ag) /\
  (forall steps mel epoch l ag0,
     Buffer.wf (buf l) -> ptr (buf l) = 0%nat -> max_size (buf l) = steps ->
     (0 < steps)%nat ->
     exists l1 ag1 evs1 b2 batch l' ag' evs,
       runs (for_range steps 0 (train_step steps mel)
               {| buf := buf l; state := state l; ep_ret := ep_ret l;
                  ep_len := ep_len l; ep_returns := [] |}) ag0 l1 ag1 evs1 /\
       ag_pi ag1 = ag_pi ag0 /\
       Buffer.get (buf l1) = Ok (b2, batch) /\
       length (data_obs batch) = steps /\
       runs (train_epoch steps mel epoch l) ag0 l' ag' evs /\
       buf l' = b2 /\
       ag_pi ag' =
         learner_step (learner_backward (pi_loss batch)
                                        (learner_zero_grad (ag_pi ag0))) /\
       count_events is_pi_opt_step evs = 1%nat).
Proof.
  intros Hwf Hget Hpos n.
  destruct (get_batch b b' data Hwf Hget) as (_ & _ & Ho & Ha & Hp).
  split; [|split; [|split]].
  - intros p. now apply pi_loss_nth.
  - intros p advs Hphi. now apply pi_loss_finite.
  - assert (Hne : data_obs data <> []).
    { intros Eo. rewrite Eo in Ho. simpl in Ho. lia. }
    destruct (runs_pi_update data ag Hne) as (ag' & Hr & Hpi & Hv & _).
    exists ag'. split; [exact Hr|]. split; [exact Hpi|]. split; [|exact Hv].
    rewrite Hpi. unfold learner_step, learner_backward, learner_zero_grad.
    simpl. now destruct (adam_step _ _ _).
  - intros steps mel epoch l ag0 Hwfl Hptr Hmax Hpos'.
    destruct (epoch_run_exists steps mel epoch l ag0 Hwfl Hptr Hmax Hpos')
      as (l' & ag' & evs & Hep & Hshape & _).
    destruct Hep as (l1 & ag1 & evs1 & b2 & batch & _ & Hr1 & Hpi1 & _ & Hp1 & Hm1
                     & _ & Hget1 & Hb & Hpi' & _ & _ & Hrun).
    exists l1, ag1, evs1, b2, batch, l', ag', evs.
    split; [exact Hr1|]. split; [exact Hpi1|]. split; [exact Hget1|].
    split.
    { destruct (decide (ptr (buf l1) = max_size (buf l1))) as [Heq|Hneq].
      - rewrite get_ok in Hget1 by assumption. injection Hget1 as _ <-.
        simpl. destruct (collect_loop steps mel steps 0
                    {| buf := buf l; state := state l; ep_ret := ep_ret l;
                       ep_len := ep_len l; ep_returns := [] |} ag0 Hwfl Hptr
                    ltac:(simpl; lia))
          as (l2 & ag2 & evs2 & [Hc2 _] & Hwf2 & _).
        destruct Hr1 as [Hc1 _]. rewrite Hc1 in Hc2.
        injection Hc2 as -> _. destruct Hwf2. lia.
      - lia. }
    split; [exact Hrun|]. split; [exact Hb|]. split; [exact Hpi'|].
    now apply (epoch_shape_one_pi_step steps).
Qed.

(** C9. From any agent, in any environment, [train] returns [True], and it
    is the first reset followed by 50 epochs in a row, each as [epoch_run]
    says: the collection loop of 3000 steps leaves the buffer with
    [ptr = max_size = path_start_idx = 3000]; [get] on that buffer returns
    the batch and the buffer the epoch hands on; the policy has taken its
    one step and the critic its hundred on that batch; and what [train]
    leaves is what the last epoch leaves.  The record of each epoch has the
    shape [epoch_shape 3000]: [store] entered 3000 times, with [ptr] running
    through 0, 1, ..., 2999; then [end_traj] at [ptr = 3000] and a reset;
    then [get] entered with [ptr = max_size = 3000], the policy update and
    the value update, in that order.  Of the three buffer operations,
    [store] adds one to [ptr], [end_traj] keeps it, and only [get], which
    needs [ptr = max_size], sets it to 0. *)
Theorem train_epoch_sequence (ag : Agent) :
  (exists obs ag0 l' ag' evss,
     runs reset_env ag obs ag0 [EvReset] /\
     epochs_run 3000 300 0
       {| buf := Buffer.init 8 3000 (99 / 100) (97 / 100); state := obs;
          ep_ret := 0; ep_len := 0; ep_returns := [] |} ag0 l' ag' evss /\
     runs train ag true ag' (EvReset :: concat evss) /\
     length evss = 50%nat /\
     Forall (epoch_shape 3000) evss) /\
  (forall b obs act rew val logp b',
     Buffer.store b obs act rew val logp = Ok b' -> ptr b' = S (ptr b)) /\
  (forall b v, ptr (Buffer.end_traj b v) = ptr b) /\
  (forall b b' data,
     Buffer.get b = Ok (b', data) -> ptr b = max_size b /\ ptr b' = 0%nat).
Proof.
  split; [|split; [|split]].
  - apply train_with_epochs. lia.
  - intros b obs act rew val logp b' Hst.
    now destruct (store_ptr_next _ _ _ _ _ _ _ Hst).
  - reflexivity.
  - intros b b' data Hget. destruct (decide (ptr b = max_size b)) as [Heq|Hne].
    + rewrite get_ok in Hget by assumption. injection Hget as <- _.
      split; [assumption|reflexivity].
    + rewrite get_raise in Hget by assumption. discriminate.
Qed.

End TrainTheorems.

Lemma pi_update_spec_witness :
  exists b' data,
    Buffer.wf buf_full /\
    Buffer.get buf_full = Ok (b', data) /\
    (0 < max_size buf_full)%nat /\
    exists ag', runs (pi_update data) agent_const tt ag' [EvPiUpdate; EvPiOptStep].
Proof.
  eexists _, _. split; [apply buf_full_wf|].
  split; [apply get_ok; reflexivity|].
  assert (Hpos : (0 < max_size buf_full)%nat) by (simpl; lia).
  split; [exact Hpos|].
  destruct (pi_update_spec buf_full _ _ agent_const buf_full_wf
              (get_ok buf_full eq_refl) Hpos) as (_ & _ & (ag' & Hr & _) & _).
  exists ag'. exact Hr.
Defined.

Lemma train_epoch_sequence_witness :
  exists ag' evss,
    runs train agent_const true ag' (EvReset :: concat evss) /\
    length evss = 50%nat /\
    Forall (epoch_shape 3000) evss.
Proof.
  destruct (train_epoch_sequence agent_const)
    as ((obs & ag0 & l' & ag' & evss & _ & _ & H) & _).
  exists ag', evss. exact H.
Defined.

(** C3 fails on the code.  With three steps to the epoch and a maximal
    episode length of one, the first step of an episode that has not
    terminated is a timeout that is not the end of the epoch: [end_traj]
    gets 0, though the critic's estimate at the current observation is 5.
    And when the episode terminates on the last step of the epoch,
    [end_traj] gets the critic's estimate 5, not 0. *)
Theorem timeout_bootstraps_zero :
  trace_of (train_step 3 1 0 locals_start agent_const) =
    Some [EvAcStep obs_zero; EvEnvStep 1; EvStore 0; EvEndTraj 1 0; EvReset] /\
  @v_net torch_const tt obs_zero = 5 /\
  trace_of (train_step 1 300 0 locals_one agent_one_step) =
    Some [EvAcStep obs_zero; EvEnvStep 1; EvStore 0; EvAcStep obs_zero;
          EvEndTraj 1 5; EvReset].
Proof.
  split; [|split].
  - lazy. reflexivity.
  - reflexivity.
  - lazy. reflexivity.
Qed.

(* ===================================================================== *)
(** ** More about [discount_cumsum] *)
(* ===================================================================== *)

Lemma discount_cumsum_nonneg (x : list R) (d : R) :
  0 <= d -> Forall (fun a => 0 <= a) x ->
  Forall (fun a => 0 <= a) (discount_cumsum x d).
Proof.
  intros Hd. induction 1 as [|a l Ha Hl IH].
  - constructor.
  - rewrite discount_cumsum_cons. constructor; [|exact IH].
    assert (0 <= hd 0 (discount_cumsum l d)).
    { destruct IH; simpl; [lra|assumption]. }
    nra.
Qed.

(** X1. An entry of [discount_cumsum x discount] depends on the entries of
    [x] from its own index on, and on nothing before: dropping the first
    [i] entries of [x] drops the first [i] entries of the result.  Each
    entry is its input plus [discount] times the entry after it. *)
Theorem discount_cumsum_suffix (x : list R) (discount : R) (i : nat) :
  discount_cumsum (drop i x) discount = drop i (discount_cumsum x discount) /\
  (forall a, discount_cumsum (a :: x) discount =
             (a + discount * hd 0 (discount_cumsum x discount))
               :: discount_cumsum x discount).
Proof.
  split; [|intros a; apply discount_cumsum_cons].
  revert x. induction i as [|i IH]; intros x; [reflexivity|].
  destruct x as [|a l]; [reflexivity|].
  rewrite discount_cumsum_cons. simpl. apply IH.
Qed.

(** X2. [discount_cumsum] is linear in its input: on arrays of one length
    the result of an elementwise sum is the elementwise sum of the results,
    and scaling the input scales the result. *)
Theorem discount_cumsum_linear (x y : list R) (c discount : R) :
  length x = length y ->
  discount_cumsum (vadd x y) discount =
    vadd (discount_cumsum x discount) (discount_cumsum y discount) /\
  discount_cumsum (vscale c x) discount =
    vscale c (discount_cumsum x discount).
Proof.
  intros Hlen. split.
  - revert y Hlen. induction x as [|a x IH]; intros [|b y] Hlen;
      try discriminate; [reflexivity|].
    unfold vadd in *. simpl zip_with.
    rewrite !discount_cumsum_cons. simpl zip_with.
    rewrite IH by (simpl in Hlen; lia). f_equal.
    assert (Hl : length (discount_cumsum x discount)
                 = length (discount_cumsum y discount)).
    { rewrite !discount_cumsum_length. simpl in Hlen. lia. }
    destruct (discount_cumsum x discount), (discount_cumsum y discount);
      try discriminate; simpl; lra.
  - clear. induction x as [|a x IH]; [reflexivity|].
    unfold vscale in *. simpl map. rewrite !discount_cumsum_cons.
    simpl map. rewrite IH. f_equal.
    destruct (discount_cumsum x discount); simpl; lra.
Qed.

Lemma discount_cumsum_linear_witness :
  length [1; 2] = length [3; 4] /\
  discount_cumsum (vscale 2 [1; 2]) (1 / 2) =
    vscale 2 (discount_cumsum [1; 2] (1 / 2)).
Proof.
  split; [reflexivity|].
  apply (discount_cumsum_linear [1; 2] [3; 4] 2 (1 / 2)). reflexivity.
Defined.

(** X3. On a constant input of [n] entries [r], entry [i] of
    [discount_cumsum] is [r] times the geometric sum
    [1 + discount + ... + discount^(n-i-1)]; at discount 1 it is
    [r * (n - i)]. *)
Theorem discount_cumsum_constant (n : nat) (r discount : R) :
  discount_cumsum (replicate n r) discount =
    map (fun i => r * Rsum (map (pow discount) (seq 0 (n - i)))) (seq 0 n) /\
  discount_cumsum (replicate n r) 1 =
    map (fun i => r * INR (n - i)) (seq 0 n).
Proof.
  assert (Hgen : forall d,
    discount_cumsum (replicate n r) d =
    map (fun i => r * Rsum (map (pow d) (seq 0 (n - i)))) (seq 0 n)).
  { intros d. rewrite discount_cumsum_closed, length_replicate.
    apply map_ext_in. intros i Hi. apply in_seq in Hi.
    unfold disc_sum. rewrite length_replicate, <- Rsum_map_scale, map_map.
    f_equal. apply map_ext_in. intros k Hk. apply in_seq in Hk.
    rewrite (nth_lookup_Some _ _ _ r); [lra|].
    apply lookup_replicate. split; [reflexivity|lia]. }
  split; [apply Hgen|].
  rewrite Hgen. apply map_ext. intros i. f_equal.
  generalize (n - i)%nat. intros m. induction m as [|m IH]; [reflexivity|].
  rewrite seq_S, map_app, Rsum_app, IH, S_INR. simpl. rewrite pow1. lra.
Qed.

(** X4. With a non-negative discount, non-negative inputs give outputs that
    are non-negative and at least as large as the inputs, entry by entry. *)
Theorem discount_cumsum_dominates (x : list R) (discount : R) :
  0 <= discount -> Forall (fun a => 0 <= a) x ->
  Forall (fun a => 0 <= a) (discount_cumsum x discount) /\
  Forall2 Rle x (discount_cumsum x discount).
Proof.
  intros Hd Hx. split; [now apply discount_cumsum_nonneg|].
  induction Hx as [|a l Ha Hl IH]; [constructor|].
  rewrite discount_cumsum_cons. constructor; [|exact IH].
  pose proof (discount_cumsum_nonneg l discount Hd Hl) as Hn.
  assert (0 <= hd 0 (discount_cumsum l discount)).
  { destruct Hn; simpl; [lra|assumption]. }
  nra.
Qed.

Lemma discount_cumsum_dominates_witness :
  Forall2 Rle [1; 2] (discount_cumsum [1; 2] (1 / 2)).
Proof.
  apply (discount_cumsum_dominates [1; 2] (1 / 2)); [lra|].
  repeat constructor; lra.
Defined.

(* ===================================================================== *)
(** ** More about [VPGBuffer] *)
(* ===================================================================== *)

Lemma lookup_slice_get {A : Type} (start stop j : nat) (a : list A) :
  slice_get start stop a !! j =
  if decide (j < stop - start)%nat then a !! (start + j)%nat else None.
Proof. unfold slice_get. rewrite lookup_take. now rewrite lookup_drop. Qed.

Lemma slice_get_insert_end {A : Type} (start stop : nat) (x : A) (a : list A) :
  (start <= stop < length a)%nat ->
  slice_get start (S stop) (<[stop := x]> a) = slice_get start stop a ++ [x].
Proof.
  intros H. apply list_eq. intros j. rewrite lookup_slice_get.
  assert (Hl : length (slice_get start stop a) = (stop - start)%nat)
    by (apply slice_get_length; lia).
  destruct (decide (j < stop - start)%nat) as [Hj|Hj].
  - rewrite lookup_app_l by lia. rewrite lookup_slice_get.
    destruct (decide (j < S stop - start)%nat); [|lia].
    destruct (decide (j < stop - start)%nat); [|lia].
    apply list_lookup_insert_ne. lia.
  - rewrite lookup_app_r by lia. rewrite Hl.
    destruct (decide (j < S stop - start)%nat) as [Hj'|Hj'].
    + replace (start + j)%nat with stop by lia.
      replace (j - (stop - start))%nat with 0%nat by lia.
      apply list_lookup_insert_eq. lia.
    + destruct (j - (stop - start))%nat eqn:E; [lia|reflexivity].
Qed.

Lemma slice_get_insert_outside {A : Type} (start stop i : nat) (x : A)
    (a : list A) :
  (i < start \/ stop <= i)%nat ->
  slice_get start stop (<[i := x]> a) = slice_get start stop a.
Proof.
  intros H. apply list_eq. intros j. rewrite !lookup_slice_get.
  destruct (decide (j < stop - start)%nat); [|reflexivity].
  apply list_lookup_insert_ne. lia.
Qed.

Lemma slice_get_all {A : Type} (a : list A) (n : nat) :
  length a = n -> slice_get 0 n a = a.
Proof.
  intros H. unfold slice_get. rewrite Nat.sub_0_r. simpl.
  apply take_ge. lia.
Qed.

Lemma store_raise (b : VPGBuffer) obs act rew val logp :
  ptr b = max_size b ->
  Buffer.store b obs act rew val logp = Raise AssertionError.
Proof.
  intros H. unfold Buffer.store.
  destruct (decide (ptr b < max_size b)%nat); [lia|reflexivity].
Qed.

(** A run of [store]s that fits: where the buffer ends up. *)
Lemma store_all_ok (ts : list Transition) :
  forall b : VPGBuffer,
    Buffer.wf b -> (ptr b + length ts <= max_size b)%nat ->
    exists b',
      store_all b ts = Ok b' /\
      Buffer.wf b' /\
      ptr b' = (ptr b + length ts)%nat /\
      max_size b' = max_size b /\
      path_start_idx b' = path_start_idx b /\
      gamma b' = gamma b /\ lam b' = lam b /\
      phi_buf b' = phi_buf b /\ ret_buf b' = ret_buf b /\
      forall start, (start <= ptr b)%nat ->
        slice_get start (ptr b') (obs_buf b') =
          slice_get start (ptr b) (obs_buf b) ++ map t_obs ts /\
        slice_get start (ptr b') (act_buf b') =
          slice_get start (ptr b) (act_buf b) ++ map t_act ts /\
        slice_get start (ptr b') (rew_buf b') =
          slice_get start (ptr b) (rew_buf b) ++ map t_rew ts /\
        slice_get start (ptr b') (val_buf b') =
          slice_get start (ptr b) (val_buf b) ++ map t_val ts /\
        slice_get start (ptr b') (logp_buf b') =
          slice_get start (ptr b) (logp_buf b) ++ map t_logp ts.
Proof.
  induction ts as [|t ts IH]; intros b Hwf Hle.
  - exists b. simpl. rewrite Nat.add_0_r.
    repeat (split; [first [reflexivity|assumption]|]).
    intros start _. now rewrite !app_nil_r.
  - simpl in Hle. pose proof Hwf as [].
    assert (Hlt : (ptr b < max_size b)%nat) by lia.
    pose proof (store_ok b (t_obs t) (t_act t) (t_rew t) (t_val t) (t_logp t)
                  Hwf Hlt) as Hst.
    pose proof (store_wf _ _ _ _ _ _ _ Hwf Hst) as Hwf1.
    set (b1 := {| obs_buf := <[ptr b := t_obs t]> (obs_buf b) |}) in *.
    destruct (IH b1 Hwf1 ltac:(simpl; lia))
      as (b' & Hall & Hwf' & Hp & Hm & Hps & Hg & Hl & Hphi & Hret & Hsl).
    exists b'. simpl store_all. rewrite Hst. simpl bind.
    split; [exact Hall|]. split; [exact Hwf'|].
    split; [rewrite Hp; simpl; lia|].
    repeat (split; [assumption|]).
    intros start Hstart.
    destruct (Hsl start ltac:(simpl; lia)) as (Ho & Ha & Hr & Hv & Hlp).
    rewrite Ho, Ha, Hr, Hv, Hlp. simpl ptr. simpl map.
    replace (ptr b + 1)%nat with (S (ptr b)) by lia.
    unfold b1. simpl obs_buf. simpl act_buf. simpl rew_buf. simpl val_buf.
    simpl logp_buf.
    rewrite !slice_get_insert_end by lia.
    rewrite <- !app_assoc. repeat split.
Qed.

Lemma store_all_overflow (ts : list Transition) :
  forall b : VPGBuffer,
    Buffer.wf b -> (max_size b < ptr b + length ts)%nat ->
    store_all b ts = Raise AssertionError.
Proof.
  induction ts as [|t ts IH]; intros b Hwf Hgt.
  - destruct Hwf. simpl in Hgt. lia.
  - simpl. destruct (decide (ptr b < max_size b)%nat) as [Hlt|Hge].
    + pose proof (store_ok b (t_obs t) (t_act t) (t_rew t) (t_val t) (t_logp t)
                    Hwf Hlt) as Hst.
      pose proof (store_wf _ _ _ _ _ _ _ Hwf Hst) as Hwf1.
      rewrite Hst. simpl bind. apply IH; [exact Hwf1|]. simpl in *. lia.
    + rewrite store_raise; [reflexivity|]. destruct Hwf. lia.
Qed.

(** [store] keeps the shape of the observation rows. *)
Lemma store_rows (b b' : VPGBuffer) obs act rew val logp (d : nat) :
  Buffer.obs_rows d b -> length obs = d ->
  Buffer.store b obs act rew val logp = Ok b' -> Buffer.obs_rows d b'.
Proof.
  unfold Buffer.store, array_set, bind, Buffer.obs_rows. intros Hrows Hobs H.
  repeat match type of H with
         | context [decide ?P] => destruct (decide P); try discriminate
         end.
  injection H as <-. simpl. apply Forall_insert; assumption.
Qed.

Lemma store_all_rows (d : nat) (ts : list Transition) :
  forall b b' : VPGBuffer,
    Buffer.obs_rows d b -> Forall (fun t => length (t_obs t) = d) ts ->
    store_all b ts = Ok b' -> Buffer.obs_rows d b'.
Proof.
  induction ts as [|t ts IH]; intros b b' Hrows Hts Hall.
  - simpl in Hall. injection Hall as <-. exact Hrows.
  - apply Forall_cons in Hts as [Ht Hts]. simpl in Hall.
    destruct (Buffer.store b (t_obs t) (t_act t) (t_rew t) (t_val t) (t_logp t))
      as [b1|e] eqn:Hst; [|discriminate].
    simpl in Hall.
    exact (IH b1 b' (store_rows _ _ _ _ _ _ _ _ Hrows Ht Hst) Hts Hall).
Qed.

(** X5. On a buffer that satisfies the data model and whose observation
    rows have [d] entries, a run of [store]s of transitions whose
    observations have [d] entries succeeds exactly when it fits in the room
    left.  When it fits, [ptr] advances by the number of transitions, the
    five components stand in their arrays from the old [ptr] on, in the
    order stored, the advantages, the returns and [path_start_idx] are as
    before, and the rows keep their shape; when it does not fit, the run
    ends in the assertion error of [store]. *)
Theorem store_all_capacity (b : VPGBuffer) (ts : list Transition) (d : nat) :
  Buffer.wf b -> Buffer.obs_rows d b ->
  Forall (fun t => length (t_obs t) = d) ts ->
  ((ptr b + length ts <= max_size b)%nat ->
   exists b',
     store_all b ts = Ok b' /\
     ptr b' = (ptr b + length ts)%nat /\
     slice_get (ptr b) (ptr b') (obs_buf b') = map t_obs ts /\
     slice_get (ptr b) (ptr b') (act_buf b') = map t_act ts /\
     slice_get (ptr b) (ptr b') (rew_buf b') = map t_rew ts /\
     slice_get (ptr b) (ptr b') (val_buf b') = map t_val ts /\
     slice_get (ptr b) (ptr b') (logp_buf b') = map t_logp ts /\
     phi_buf b' = phi_buf b /\ ret_buf b' = ret_buf b /\
     path_start_idx b' = path_start_idx b /\
     Buffer.obs_rows d b') /\
  ((max_size b < ptr b + length ts)%nat ->
   store_all b ts = Raise AssertionError).
Proof.
  intros Hwf Hrows Hts. split; [|now apply store_all_overflow].
  intros Hle.
  destruct (store_all_ok ts b Hwf Hle)
    as (b' & Hall & _ & Hp & _ & Hps & _ & _ & Hphi & Hret & Hsl).
  destruct (Hsl (ptr b) (Nat.le_refl _)) as (Ho & Ha & Hr & Hv & Hlp).
  rewrite slice_get_empty in Ho; rewrite slice_get_empty in Ha;
    rewrite slice_get_empty in Hr; rewrite slice_get_empty in Hv;
    rewrite slice_get_empty in Hlp.
  exists b'. repeat (split; [assumption|]).
  exact (store_all_rows d ts b b' Hrows Hts Hall).
Qed.

Lemma buf_one_wf : Buffer.wf buf_one.
Proof. split; simpl; lia. Qed.

Lemma buf_one_rows : Buffer.obs_rows 1 buf_one.
Proof. unfold Buffer.obs_rows. simpl. repeat constructor. Qed.

Lemma two_transitions_rows :
  Forall (fun t => length (t_obs t) = 1%nat) two_transitions.
Proof. repeat constructor. Qed.

Lemma store_all_capacity_witness :
  Buffer.wf buf_one /\ Buffer.obs_rows 1 buf_one /\
  Forall (fun t => length (t_obs t) = 1%nat) two_transitions /\
  exists b',
    store_all buf_one two_transitions = Ok b' /\ ptr b' = 2%nat.
Proof.
  split; [apply buf_one_wf|]. split; [apply buf_one_rows|].
  split; [apply two_transitions_rows|].
  destruct (store_all_capacity buf_one two_transitions 1 buf_one_wf
              buf_one_rows two_transitions_rows)
    as [Hfit _].
  destruct (Hfit ltac:(simpl; lia)) as (b' & Hall & Hp & _).
  exists b'. split; [exact Hall|exact Hp].
Defined.

(** X6. One epoch through the buffer, as a single trajectory: on a buffer
    with [ptr = 0] that satisfies the data model and whose observation rows
    have [d] entries, [max_size] calls of [store] of transitions whose
    observations have [d] entries, then [end_traj], then [get] succeed; the
    batch holds the observations, the actions and the log-probabilities
    that were stored, in their order, and its returns are [discount_cumsum]
    of the stored rewards at [gamma]; the buffer is left with
    [ptr = path_start_idx = 0]. *)
Theorem epoch_round_trip (b : VPGBuffer) (ts : list Transition) (last_val : R)
    (d : nat) :
  Buffer.wf b -> Buffer.obs_rows d b ->
  Forall (fun t => length (t_obs t) = d) ts ->
  ptr b = 0%nat -> length ts = max_size b ->
  exists b1 b2 data,
    store_all b ts = Ok b1 /\
    Buffer.get (Buffer.end_traj b1 last_val) = Ok (b2, data) /\
    data_obs data = map t_obs ts /\
    data_act data = map t_act ts /\
    data_logp data = map t_logp ts /\
    data_ret data = discount_cumsum (map t_rew ts) (gamma b) /\
    ptr b2 = 0%nat /\ path_start_idx b2 = 0%nat /\ Buffer.wf b2 /\
    Buffer.obs_rows d b2.
Proof.
  intros Hwf Hrows Hts Hptr Hlen.
  destruct (store_all_ok ts b Hwf ltac:(lia))
    as (b1 & Hall & Hwf1 & Hp & Hm & Hps & Hg & _ & _ & _ & Hsl).
  destruct (Hsl 0%nat ltac:(lia)) as (Ho & Ha & Hr & _ & Hlp).
  rewrite Hptr in Ho, Ha, Hr, Hlp.
  rewrite slice_get_empty in Ho; rewrite slice_get_empty in Ha;
    rewrite slice_get_empty in Hr; rewrite slice_get_empty in Hlp.
  simpl in Ho, Ha, Hr, Hlp.
  pose proof Hwf1 as [].
  assert (Hfull : ptr b1 = max_size b1) by lia.
  assert (Hstart : path_start_idx b1 = 0%nat) by (destruct Hwf; lia).
  rewrite Hfull in Ho, Ha, Hr, Hlp.
  rewrite slice_get_all in Ho by assumption;
    rewrite slice_get_all in Ha by assumption;
    rewrite slice_get_all in Hr by assumption;
    rewrite slice_get_all in Hlp by assumption.
  pose proof (end_traj_wf b1 last_val Hwf1) as Hwf2.
  pose proof (store_all_rows d ts b b1 Hrows Hts Hall) as Hrows1.
  eexists b1, _, _. split; [exact Hall|].
  split; [apply get_ok; simpl; exact Hfull|]. simpl.
  split; [exact Ho|]. split; [exact Ha|]. split; [exact Hlp|].
  split; [|split; [reflexivity|split; [reflexivity|split]]].
  - rewrite Hstart, Hfull, slice_get_all by assumption.
    rewrite but_last_snoc, Hr, Hg.
    unfold slice_set. simpl take. rewrite drop_ge.
    + now rewrite app_nil_r.
    + rewrite Nat.max_r by lia. lia.
  - eapply get_wf; [exact Hwf2|]. apply get_ok. simpl. exact Hfull.
  - exact Hrows1.
Qed.

Lemma epoch_round_trip_witness :
  exists b1 b2 data,
    store_all buf_one two_transitions = Ok b1 /\
    Buffer.get (Buffer.end_traj b1 0) = Ok (b2, data) /\
    data_act data = [1%Z; 2%Z].
Proof.
  destruct (epoch_round_trip buf_one two_transitions 0 1 buf_one_wf
              buf_one_rows two_transitions_rows eq_refl eq_refl)
    as (b1 & b2 & data & Hall & Hget & _ & Ha & _).
  exists b1, b2, data. split; [exact Hall|]. split; [exact Hget|exact Ha].
Defined.

(** X7. The data model of the buffer is an invariant: [__init__]
    establishes it, and [store] (when it succeeds), [end_traj] and [get]
    (when it succeeds) keep it, with [max_size], [gamma] and [lam] never
    changed. *)
Theorem buffer_invariant (b : VPGBuffer) :
  Buffer.wf b ->
  (forall obs_dim size g l, Buffer.wf (Buffer.init obs_dim size g l)) /\
  (forall obs act rew val logp b',
     Buffer.store b obs act rew val logp = Ok b' ->
     Buffer.wf b' /\ max_size b' = max_size b /\
     gamma b' = gamma b /\ lam b' = lam b) /\
  (forall v,
     Buffer.wf (Buffer.end_traj b v) /\
     max_size (Buffer.end_traj b v) = max_size b /\
     gamma (Buffer.end_traj b v) = gamma b /\
     lam (Buffer.end_traj b v) = lam b) /\
  (forall b' data,
     Buffer.get b = Ok (b', data) ->
     Buffer.wf b' /\ max_size b' = max_size b /\
     gamma b' = gamma b /\ lam b' = lam b).
Proof.
  intros Hwf. split; [apply init_wf|]. split; [|split].
  - intros obs act rew val logp b' Hst.
    split; [exact (store_wf _ _ _ _ _ _ _ Hwf Hst)|].
    destruct (decide (ptr b < max_size b)%nat) as [Hlt|Hge].
    + rewrite store_ok in Hst by assumption. injection Hst as <-.
      repeat split.
    + rewrite store_raise in Hst by (destruct Hwf; lia). discriminate.
  - intros v. split; [now apply end_traj_wf|]. repeat split.
  - intros b' data Hget. split; [exact (get_wf _ _ _ Hwf Hget)|].
    destruct (decide (ptr b = max_size b)) as [Heq|Hne].
    + rewrite get_ok in Hget by assumption. injection Hget as <- _.
      repeat split.
    + rewrite get_raise in Hget by assumption. discriminate.
Qed.

Lemma buffer_invariant_witness :
  Buffer.wf buf_two /\ Buffer.wf (Buffer.end_traj buf_two 5).
Proof.
  split; [apply buf_two_wf|].
  apply (buffer_invariant buf_two buf_two_wf).
Defined.

(** X8. [end_traj] writes inside the open slice only: every advantage and
    every return at an index before [path_start_idx] or from [ptr] on is as
    before, and the observations, actions, rewards, values and
    log-probabilities are not touched at all. *)
Theorem end_traj_outside_slice (b : VPGBuffer) (last_val : R) (j : nat) :
  Buffer.wf b ->
  (j < path_start_idx b \/ ptr b <= j)%nat ->
  let b' := Buffer.end_traj b last_val in
  phi_buf b' !! j = phi_buf b !! j /\
  ret_buf b' !! j = ret_buf b !! j /\
  obs_buf b' = obs_buf b /\ act_buf b' = act_buf b /\
  rew_buf b' = rew_buf b /\ val_buf b' = val_buf b /\
  logp_buf b' = logp_buf b.
Proof.
  intros Hwf Hj b'.
  destruct (end_traj_frame b last_val Hwf)
    as (Hp1 & Hp2 & Hr1 & Hr2 & Hrest).
  fold b' in Hp1, Hp2, Hr1, Hr2.
  assert (Hlk : forall (A : Type) (l l' : list A),
            take (path_start_idx b) l' = take (path_start_idx b) l ->
            drop (ptr b) l' = drop (ptr b) l -> l' !! j = l !! j).
  { intros A l l' Ht Hd. destruct Hj as [Hj|Hj].
    - apply (f_equal (fun x => x !! j)) in Ht.
      rewrite !lookup_take in Ht.
      destruct (decide (j < path_start_idx b)%nat); [exact Ht|lia].
    - apply (f_equal (fun x => x !! (j - ptr b)%nat)) in Hd.
      rewrite !lookup_drop in Hd.
      now replace (ptr b + (j - ptr b))%nat with j in Hd by lia. }
  split; [now apply Hlk|]. split; [now apply Hlk|]. exact Hrest.
Qed.

Lemma end_traj_outside_slice_witness :
  phi_buf (Buffer.end_traj buf_two 5) !! 2%nat = phi_buf buf_two !! 2%nat.
Proof.
  apply (end_traj_outside_slice buf_two 5 2 buf_two_wf). right. simpl. lia.
Defined.

(** X9. Closing a trajectory twice is closing it once: a second [end_traj],
    with any value, right after the first changes nothing. *)
Theorem end_traj_twice (b : VPGBuffer) (v w : R) :
  Buffer.end_traj (Buffer.end_traj b v) w = Buffer.end_traj b v.
Proof.
  generalize (Buffer.end_traj b v) (eq_refl : path_start_idx (Buffer.end_traj b v)
                                              = ptr (Buffer.end_traj b v)).
  intros c Hc. destruct c as [o a p r t vl l g lm k s m]. simpl in Hc. subst s.
  unfold Buffer.end_traj. simpl. rewrite !slice_get_empty. simpl.
  unfold Buffer.deltas, but_last, but_first, vsub, vadd, vscale. simpl.
  rewrite discount_cumsum_nil. simpl. now rewrite !slice_set_empty.
Qed.

(* ===================================================================== *)
(** ** What [end_traj] computes *)
(* ===================================================================== *)

Lemma nth_slice_get {A : Type} (d : A) (start stop i : nat) (a : list A) :
  (i < stop - start)%nat ->
  nth i (slice_get start stop a) d = nth (start + i) a d.
Proof.
  intros Hi. rewrite !nth_lookup, lookup_slice_get.
  destruct (decide (i < stop - start)%nat); [reflexivity|lia].
Qed.

(** The two slices [end_traj] writes, in the code's own terms. *)
Lemma end_traj_slices (b : VPGBuffer) (v : R) :
  Buffer.wf b ->
  let start := path_start_idx b in
  let stop := ptr b in
  let b' := Buffer.end_traj b v in
  slice_get start stop (phi_buf b') =
    map Fin (discount_cumsum
               (Buffer.deltas (gamma b)
                  (slice_get start stop (rew_buf b) ++ [v])
                  (slice_get start stop (val_buf b) ++ [v]))
               (gamma b * lam b)) /\
  slice_get start stop (ret_buf b') =
    discount_cumsum (slice_get start stop (rew_buf b)) (gamma b).
Proof.
  intros Hwf. pose proof Hwf as []. intros start stop b'. split.
  - unfold b'. simpl. apply slice_get_set; [unfold start, stop; lia|].
    rewrite length_map, discount_cumsum_length, deltas_nth
      by (rewrite !slice_get_length; lia).
    rewrite length_map, length_seq, slice_get_length; lia.
  - unfold b'. simpl. rewrite but_last_snoc.
    apply slice_get_set; [unfold start, stop; lia|].
    rewrite discount_cumsum_length, slice_get_length; lia.
Qed.

Lemma discount_cumsum_nth_rec (x : list R) (d : R) :
  forall i,
    nth i (discount_cumsum x d) 0 =
    nth i x 0 + d * nth (S i) (discount_cumsum x d) 0.
Proof.
  induction x as [|a l IH]; intros i.
  - rewrite discount_cumsum_nil. destruct i; simpl; lra.
  - rewrite discount_cumsum_cons. destruct i as [|i].
    + simpl. destruct (discount_cumsum l d); simpl; lra.
    + simpl. apply IH.
Qed.

(** X10. The returns that [end_traj] stores obey the recurrence of the
    discounted return: at each index of the closed slice the return is the
    reward there plus [gamma] times the return at the next index, and the
    return after the last index counts as 0 (the value handed to
    [end_traj] does not enter the returns). *)
Theorem end_traj_return_recurrence (b : VPGBuffer) (last_val : R) (i : nat) :
  Buffer.wf b ->
  (i < ptr b - path_start_idx b)%nat ->
  let start := path_start_idx b in
  let b' := Buffer.end_traj b last_val in
  nth (start + i) (ret_buf b') 0 =
    nth (start + i) (rew_buf b) 0
    + gamma b * (if decide (S i < ptr b - start)%nat
                 then nth (start + S i) (ret_buf b') 0 else 0).
Proof.
  intros Hwf Hi start b'. pose proof Hwf as [].
  destruct (end_traj_slices b last_val Hwf) as [_ Hret].
  fold start b' in Hret.
  rewrite <- (nth_slice_get 0 start (ptr b) i (ret_buf b')) by exact Hi.
  rewrite <- (nth_slice_get 0 start (ptr b) i (rew_buf b)) by exact Hi.
  rewrite Hret, discount_cumsum_nth_rec. f_equal. f_equal.
  destruct (decide (S i < ptr b - start)%nat) as [Hlt|Hge].
  - rewrite <- (nth_slice_get 0 start (ptr b) (S i) (ret_buf b')) by exact Hlt.
    now rewrite Hret.
  - apply nth_overflow.
    rewrite discount_cumsum_length, slice_get_length; unfold start; lia.
Qed.

Lemma end_traj_return_recurrence_witness :
  nth 0 (ret_buf (Buffer.end_traj buf_two 5)) 0 =
  nth 0 (rew_buf buf_two) 0
  + gamma buf_two * nth 1 (ret_buf (Buffer.end_traj buf_two 5)) 0.
Proof.
  apply (end_traj_return_recurrence buf_two 5 0 buf_two_wf). simpl. lia.
Defined.

Lemma deltas_cons (g v a c : R) (r w : list R) :
  length r = length w ->
  Buffer.deltas g ((a :: r) ++ [v]) ((c :: w) ++ [v]) =
  (a + g * hd 0 (w ++ [v]) - c) :: Buffer.deltas g (r ++ [v]) (w ++ [v]).
Proof.
  intros Hlen. unfold Buffer.deltas. rewrite !but_last_snoc.
  unfold vsub, vadd, vscale, but_first.
  destruct w as [|c1 w]; destruct r as [|a1 r]; try discriminate; reflexivity.
Qed.

(** With [lam = 1] the discounted sum of the residuals telescopes. *)
Lemma gae_one (g v : R) (r : list R) :
  forall w : list R,
    length r = length w ->
    discount_cumsum (Buffer.deltas g (r ++ [v]) (w ++ [v])) g =
    map (fun i => nth i (discount_cumsum r g) 0 + g ^ (length r - i) * v
                  - nth i w 0)
        (seq 0 (length r)).
Proof.
  induction r as [|a r IH]; intros [|c w] Hlen; try discriminate.
  - reflexivity.
  - assert (Hlen' : length r = length w) by (simpl in Hlen; lia).
    rewrite deltas_cons by exact Hlen'.
    rewrite discount_cumsum_cons, (IH w Hlen').
    simpl length. cbn [seq map]. rewrite <- seq_shift, map_map. f_equal.
    + rewrite discount_cumsum_cons. cbn [nth Nat.sub].
      destruct r as [|a1 r]; destruct w as [|c1 w]; try discriminate.
      * simpl. lra.
      * rewrite discount_cumsum_cons. simpl. lra.
    + apply map_ext. intros i. rewrite discount_cumsum_cons.
      reflexivity.
Qed.

(** X11. With [lam = 1] the advantage that [end_traj] stores at an index of
    the closed slice is the return stored there, plus [last_val] discounted
    over the steps that remain, minus the value stored there: the
    bootstrapped return less the baseline. *)
Theorem end_traj_gae_one (b : VPGBuffer) (last_val : R) (i : nat) :
  Buffer.wf b -> lam b = 1 ->
  (i < ptr b - path_start_idx b)%nat ->
  let start := path_start_idx b in
  let b' := Buffer.end_traj b last_val in
  nth (start + i) (phi_buf b') NaN =
    Fin (nth (start + i) (ret_buf b') 0
         + gamma b ^ (ptr b - start - i) * last_val
         - nth (start + i) (val_buf b) 0).
Proof.
  intros Hwf Hlam Hi start b'. pose proof Hwf as [].
  destruct (end_traj_slices b last_val Hwf) as [Hphi Hret].
  fold start b' in Hphi, Hret.
  assert (Hn : length (slice_get start (ptr b) (rew_buf b))
               = (ptr b - start)%nat) by (apply slice_get_length; lia).
  assert (Hw : length (slice_get start (ptr b) (val_buf b))
               = (ptr b - start)%nat) by (apply slice_get_length; lia).
  rewrite <- (nth_slice_get NaN start (ptr b) i (phi_buf b')) by exact Hi.
  rewrite <- (nth_slice_get 0 start (ptr b) i (ret_buf b')) by exact Hi.
  rewrite <- (nth_slice_get 0 start (ptr b) i (val_buf b)) by exact Hi.
  rewrite Hphi, Hret, Hlam, Rmult_1_r, gae_one by congruence.
  rewrite (nth_indep _ NaN (Fin 0))
    by (rewrite !length_map, length_seq; lia).
  rewrite (map_nth Fin), Hn.
  now rewrite nth_map_seq by lia.
Qed.

Lemma end_traj_gae_one_witness :
  nth 0 (phi_buf (Buffer.end_traj buf_two 5)) NaN =
  Fin (nth 0 (ret_buf (Buffer.end_traj buf_two 5)) 0
       + gamma buf_two ^ 2 * 5 - nth 0 (val_buf buf_two) 0).
Proof.
  apply (end_traj_gae_one buf_two 5 0 buf_two_wf); [reflexivity|simpl; lia].
Defined.

(** X12. With [lam = 0] the advantage that [end_traj] stores at an index of
    the closed slice is the one-step residual: the reward there, plus
    [gamma] times the next value (the value stored at the next index, or
    [last_val] at the end of the slice), minus the value there. *)
Theorem end_traj_gae_zero (b : VPGBuffer) (last_val : R) (i : nat) :
  Buffer.wf b -> lam b = 0 ->
  (i < ptr b - path_start_idx b)%nat ->
  let start := path_start_idx b in
  let b' := Buffer.end_traj b last_val in
  nth (start + i) (phi_buf b') NaN =
    Fin (nth (start + i) (rew_buf b) 0
         + gamma b * (if decide (S i < ptr b - start)%nat
                      then nth (start + S i) (val_buf b) 0 else last_val)
         - nth (start + i) (val_buf b) 0).
Proof.
  intros Hwf Hlam Hi start b'. pose proof Hwf as [].
  destruct (end_traj_slices b last_val Hwf) as [Hphi _].
  fold start b' in Hphi.
  assert (Hn : length (slice_get start (ptr b) (rew_buf b))
               = (ptr b - start)%nat) by (apply slice_get_length; lia).
  assert (Hw : length (slice_get start (ptr b) (val_buf b))
               = (ptr b - start)%nat) by (apply slice_get_length; lia).
  rewrite <- (nth_slice_get NaN start (ptr b) i (phi_buf b')) by exact Hi.
  rewrite Hphi, Hlam, Rmult_0_r, discount_cumsum_zero.
  rewrite deltas_nth by congruence.
  rewrite (nth_indep _ NaN (Fin 0))
    by (rewrite !length_map, length_seq; lia).
  rewrite (map_nth Fin), Hn, nth_map_seq by lia.
  rewrite (app_nth1 (slice_get start (ptr b) (rew_buf b)) _ 0 (n := i)),
          (app_nth1 (slice_get start (ptr b) (val_buf b)) _ 0 (n := i)) by lia.
  rewrite !nth_slice_get by lia.
  destruct (decide (S i < ptr b - start)%nat) as [Hlt|Hge].
  - rewrite app_nth1 by lia. now rewrite nth_slice_get by lia.
  - rewrite app_nth2 by lia. rewrite Hw.
    now replace (S i - (ptr b - start))%nat with 0%nat by lia.
Qed.

Lemma end_traj_gae_zero_witness :
  nth 1 (phi_buf (Buffer.end_traj buf_two_td 5)) NaN =
  Fin (nth 1 (rew_buf buf_two_td) 0 + gamma buf_two_td * 5
       - nth 1 (val_buf buf_two_td) 0).
Proof.
  apply (end_traj_gae_zero buf_two_td 5 1); [split; simpl; lia|reflexivity|].
  simpl. lia.
Defined.

(* ===================================================================== *)
(** ** What [get] returns *)
(* ===================================================================== *)

Lemma Rabs_sq (a : R) : Rabs a * Rabs a = a * a.
Proof. rewrite <- Rabs_mult. apply Rabs_pos_eq. nra. Qed.

Lemma Rsum_map_affine (m s : R) (xs : list R) :
  Rsum (map (fun x => (x - m) / s) xs) = (Rsum xs - INR (length xs) * m) / s.
Proof.
  induction xs as [|x xs IH].
  - simpl. lra.
  - change (Rsum (map (fun x => (x - m) / s) (x :: xs)))
      with ((x - m) / s + Rsum (map (fun x => (x - m) / s) xs)).
    rewrite IH. change (length (x :: xs)) with (S (length xs)).
    rewrite S_INR. simpl. unfold Rdiv. lra.
Qed.

Lemma Rsum_map_div (s : R) (f : R -> R) (xs : list R) :
  Rsum (map (fun x => f x / s) xs) = Rsum (map f xs) / s.
Proof.
  induction xs as [|x xs IH]; simpl.
  - unfold Rdiv. lra.
  - rewrite IH. unfold Rdiv. lra.
Qed.

(** The standard score of finitely many reals has mean 0 and deviation 1. *)
Lemma standard_score (xs : list R) :
  Rstd xs <> 0 ->
  let ys := map (fun x => (x - Rmean xs) / Rstd xs) xs in
  Rmean ys = 0 /\ Rstd ys = 1.
Proof.
  intros Hs ys.
  assert (Hne : xs <> []).
  { intros ->. apply Hs. unfold Rstd, Rmean. simpl.
    rewrite Rdiv_0_l. apply sqrt_0. }
  pose proof (INR_length_nonzero xs Hne) as Hn.
  assert (Hmean : Rmean ys = 0).
  { unfold Rmean at 1. unfold ys. rewrite Rsum_map_affine, length_map.
    unfold Rmean. field. split; assumption. }
  split; [exact Hmean|].
  set (V := Rmean (map (fun x => Rabs (x - Rmean xs) * Rabs (x - Rmean xs)) xs)).
  assert (HV : 0 <= V) by apply Rmean_nonneg, sq_dev_nonneg.
  assert (Hsq : Rstd xs * Rstd xs = V) by (apply sqrt_sqrt; exact HV).
  unfold Rstd at 1. rewrite Hmean.
  replace (Rmean (map (fun x => Rabs (x - 0) * Rabs (x - 0)) ys)) with 1;
    [apply sqrt_1|].
  unfold Rmean. unfold ys at 1. rewrite map_map, !length_map.
  rewrite (map_ext _ (fun x => (Rabs (x - Rmean xs) * Rabs (x - Rmean xs))
                               / (Rstd xs * Rstd xs))).
  2:{ intros x. rewrite !Rabs_sq. field. exact Hs. }
  rewrite Rsum_map_div, Hsq. unfold V, Rmean. rewrite length_map.
  assert (HV0 : V <> 0) by (rewrite <- Hsq; nra).
  unfold V, Rmean in HV0. rewrite length_map in HV0.
  replace (length ys) with (length xs) by (unfold ys; now rewrite length_map).
  set (S := Rsum _) in *.
  assert (HS : S <> 0) by (intros H0; apply HV0; rewrite H0; apply Rdiv_0_l).
  field. split; assumption.
Qed.

Lemma Rstd_zero_two : Rstd [0; 2] <> 0.
Proof.
  assert (Hm : Rmean [0; 2] = 1) by (unfold Rmean; simpl; lra).
  unfold Rstd. rewrite Hm.
  replace (Rmean (map (fun x => Rabs (x - 1) * Rabs (x - 1)) [0; 2])) with 1.
  - rewrite sqrt_1. lra.
  - unfold Rmean. simpl. rewrite !Rabs_sq. lra.
Qed.

(** X13. On a full buffer of finite advantages whose standard deviation is
    not zero, [get] returns finite normalised advantages, as many as
    before, whose mean is 0 and whose standard deviation is 1. *)
Theorem get_normalises (b : VPGBuffer) (xs : list R) :
  ptr b = max_size b ->
  phi_buf b = map Fin xs ->
  Rstd xs <> 0 ->
  exists b' data ys,
    Buffer.get b = Ok (b', data) /\
    data_phi data = map Fin ys /\
    phi_buf b' = map Fin ys /\
    length ys = length xs /\
    Rmean ys = 0 /\
    Rstd ys = 1.
Proof.
  intros Hfull Hphi Hs.
  exists {| obs_buf := obs_buf b; act_buf := act_buf b;
            phi_buf := map (fun x => fdiv (fsub x (np_mean (phi_buf b)))
                                          (np_std (phi_buf b))) (phi_buf b);
            rew_buf := rew_buf b; ret_buf := ret_buf b; val_buf := val_buf b;
            logp_buf := logp_buf b; gamma := gamma b; lam := lam b;
            ptr := 0; path_start_idx := 0; max_size := max_size b |}.
  eexists. exists (map (fun x => (x - Rmean xs) / Rstd xs) xs).
  split; [apply get_ok; exact Hfull|]. simpl.
  rewrite Hphi, normalise_Fin by exact Hs. rewrite map_map.
  split; [reflexivity|]. split; [reflexivity|].
  split; [apply length_map|]. now apply standard_score.
Qed.

Lemma get_normalises_witness :
  exists b' data ys,
    Buffer.get buf_full = Ok (b', data) /\
    data_phi data = map Fin ys /\
    Rmean ys = 0 /\ Rstd ys = 1.
Proof.
  destruct (get_normalises buf_full [0; 2] eq_refl eq_refl Rstd_zero_two)
    as (b' & data & ys & Hg & Hd & _ & _ & Hm & Hs).
  exists b', data, ys. repeat split; assumption.
Defined.

(* ===================================================================== *)
(** ** [mlp] *)
(* ===================================================================== *)

Lemma fold_left_app_flat_map {A B : Type} (f : A -> list B) (l : list A) :
  forall init : list B,
    fold_left (fun acc j => acc ++ f j) l init = init ++ List.flat_map f l.
Proof.
  induction l as [|a l IH]; intros init; simpl.
  - now rewrite app_nil_r.
  - now rewrite IH, app_assoc.
Qed.

Lemma mlp_flat_map (sizes : list nat) (act oa : Act) :
  mlp sizes act oa =
  List.flat_map
    (fun j => [Linear (nth j sizes 0%nat) (nth (S j) sizes 0%nat);
               Activation (if (j <? length sizes - 2)%nat then act else oa)])
    (seq 0 (length sizes - 1)).
Proof. unfold mlp. now rewrite fold_left_app_flat_map. Qed.

(** [mlp] one layer pair at a time. *)
Lemma mlp_cons (a b : nat) (rest : list nat) (act oa : Act) :
  mlp (a :: b :: rest) act oa =
  Linear a b
    :: Activation (match rest with [] => oa | _ => act end)
    :: mlp (b :: rest) act oa.
Proof.
  rewrite !mlp_flat_map. simpl length.
  replace (S (S (length rest)) - 1)%nat with (S (length rest)) by lia.
  replace (S (length rest) - 1)%nat with (length rest) by lia.
  cbn [seq List.flat_map app nth]. f_equal. f_equal.
  - destruct rest; reflexivity.
  - rewrite <- seq_shift, !flat_map_concat_map, map_map. f_equal.
    apply map_ext_in. intros j Hj. apply in_seq in Hj.
    cbn [nth]. do 3 f_equal.
    destruct (Nat.ltb_spec (S j) (S (S (length rest)) - 2));
      destruct (Nat.ltb_spec j (S (length rest) - 2));
      try reflexivity; lia.
Qed.

Lemma mlp_out_dim (act oa : Act) (sizes : list nat) :
  forall a, out_dim (mlp (a :: sizes) act oa) a = Some (List.last sizes a).
Proof.
  induction sizes as [|b rest IH]; intros a.
  - reflexivity.
  - rewrite mlp_cons. simpl out_dim. rewrite Nat.eqb_refl, IH. f_equal.
    clear. revert a b. induction rest as [|c rest IH]; intros a b;
      [reflexivity|].
    change (List.last (b :: c :: rest) a) with (List.last (c :: rest) a).
    change (List.last (c :: rest) b) with
      (match rest with [] => c | _ => List.last rest b end).
    destruct rest as [|e rest]; [reflexivity|].
    rewrite <- (IH a c). symmetry. apply (IH b c).
Qed.

Lemma mlp_length (act oa : Act) (sizes : list nat) :
  length (mlp sizes act oa) = (2 * (length sizes - 1))%nat.
Proof.
  destruct sizes as [|a sizes]; [reflexivity|]. revert a.
  induction sizes as [|b rest IH]; intros a; [reflexivity|].
  rewrite mlp_cons. simpl length. rewrite (IH b). simpl. lia.
Qed.

Lemma mlp_last_pair (act oa : Act) (hidden : list nat) :
  forall d0 d_out,
    exists body n_in,
      mlp (d0 :: hidden ++ [d_out]) act oa =
        body ++ [Linear n_in d_out; Activation oa] /\
      Forall (activation_is act) body.
Proof.
  induction hidden as [|h hidden IH]; intros d0 d_out.
  - exists [], d0. split; [reflexivity|constructor].
  - destruct (IH h d_out) as (body & n_in & Heq & Hall).
    exists (Linear d0 h :: Activation act :: body), n_in.
    split; [|repeat constructor; assumption].
    change ((h :: hidden) ++ [d_out]) with (h :: hidden ++ [d_out]).
    rewrite mlp_cons, Heq.
    destruct (hidden ++ [d_out]) eqn:E; [|reflexivity].
    destruct hidden; discriminate.
Qed.

(** X14. The network [mlp] builds for the sizes
    [d0, hidden..., d_out] is well formed: its layers chain, so that it
    takes vectors of size [d0] to vectors of size [d_out]; there are two
    layers per pair of consecutive sizes; the last two are the linear layer
    into [d_out] and the output activation, and every activation before
    them is [activation].  A list of fewer than two sizes gives no layers.
    The actor of the source takes 8 numbers to 4 logits and the critic 8
    numbers to 1, whatever the hidden sizes. *)
Theorem mlp_shape (d0 d_out : nat) (hidden : list nat) (act oa : Act) :
  let layers := mlp ([d0] ++ hidden ++ [d_out]) act oa in
  out_dim layers d0 = Some d_out /\
  length layers = (2 * (length hidden + 1))%nat /\
  (exists body n_in,
     layers = body ++ [Linear n_in d_out; Activation oa] /\
     Forall (activation_is act) body) /\
  mlp [] act oa = [] /\
  mlp [d0] act oa = [] /\
  out_dim (actor_layers 8 4 hidden act) 8 = Some 4%nat /\
  out_dim (critic_layers 8 hidden act) 8 = Some 1%nat.
Proof.
  assert (Hlast : forall d z, List.last (hidden ++ [z]) d = z).
  { intros d z. apply last_last. }
  intros layers. unfold layers, actor_layers, critic_layers. simpl app.
  rewrite !mlp_out_dim, !Hlast, mlp_length. simpl length.
  rewrite length_app. simpl length.
  split; [reflexivity|]. split; [lia|].
  split; [apply mlp_last_pair|]. repeat split.
Qed.

(* ===================================================================== *)
(** ** More about the actor-critic and the updates *)
(* ===================================================================== *)

Section AgentFacts.

Context {E : Environment} {T : Torch}.

(** X15. [step] draws twice from the policy at [state]: the action it
    returns is the second draw, the log-probability it returns is that of
    the first, and the value is the critic's estimate at [state], whatever
    is drawn.  The log-probability is that of the returned action exactly
    when the two draws have the same log-probability, in particular when
    they are the same action. *)
Theorem step_two_draws (p_pi p_v : params) (state : Obs) (g : rng) :
  let d := logits_net p_pi state in
  let a1 := fst (sample d g) in
  let g1 := snd (sample d g) in
  let a2 := fst (sample d g1) in
  step p_pi p_v state g =
    ((a2, v_net p_v state, Some (log_prob d a1)), snd (sample d g1)) /\
  (step_consistent p_pi p_v state g <-> log_prob d a1 = log_prob d a2) /\
  (a1 = a2 -> step_consistent p_pi p_v state g).
Proof.
  intros d a1 g1 a2.
  assert (Hiff : step_consistent p_pi p_v state g
                 <-> log_prob d a1 = log_prob d a2).
  { unfold step_consistent. rewrite step_eq. simpl. fold d a1 g1 a2.
    split; [intros H; now injection H|intros ->; reflexivity]. }
  split; [apply step_eq|]. split; [exact Hiff|].
  intros Heq. apply Hiff. now rewrite Heq.
Qed.

(** X16. [get_action] returns the action that [step] returns and changes
    nothing that is learned: the parameters, gradients and optimizers of
    both networks and the environment are as before; only the random
    source moves on. *)
Theorem get_action_pure (obs : Obs) (ag : Agent) :
  exists ag',
    runs (get_action obs) ag
         (fst (fst (fst (step (l_params (ag_pi ag)) (l_params (ag_v ag))
                              obs (ag_rng ag)))))
         ag' [EvAcStep obs] /\
    ag_pi ag' = ag_pi ag /\ ag_v ag' = ag_v ag /\ ag_env ag' = ag_env ag /\
    ag_rng ag' = snd (step (l_params (ag_pi ag)) (l_params (ag_v ag))
                           obs (ag_rng ag)).
Proof.
  unfold runs, get_action, bindM, ac_step, retM.
  destruct (step _ _ obs (ag_rng ag)) as [[[a v] lp] g]. simpl.
  eexists. repeat split.
Qed.

Lemma runs_v_loop_iter (data : Batch) :
  forall (n start : nat) (ag : Agent),
    exists ag',
      runs (for_range n start (v_update_iter data) tt) ag tt ag'
           (replicate n EvVOptStep) /\
      ag_v ag' =
        Nat.iter n (fun l => learner_step (learner_backward (v_loss data) l))
                 (ag_v ag) /\
      ag_pi ag' = ag_pi ag /\ ag_env ag' = ag_env ag /\ ag_rng ag' = ag_rng ag.
Proof.
  induction n as [|n IH]; intros start ag.
  - exists ag. split; [apply runs_ret|]. repeat split.
  - set (ag1 :=
      {| ag_env := ag_env ag; ag_rng := ag_rng ag; ag_pi := ag_pi ag;
         ag_v := learner_step (learner_backward (v_loss data) (ag_v ag));
         ag_log := ag_log ag ++ [EvVOptStep] |}).
    destruct (IH (S start) ag1) as (ag' & [Hc Hl] & Hv & Hp & He & Hr).
    exists ag'. split; [split|].
    + simpl. unfold bindM at 1. simpl. exact Hc.
    + rewrite Hl. simpl. now rewrite <- app_assoc.
    + rewrite Hv, Nat.iter_succ_r. repeat split; assumption.
Qed.

(** X17. [v_update] zeroes the critic's gradient once and then makes 100
    rounds of [loss.backward()] and [v_optimizer.step()] on the same loss,
    so that each round adds its gradient to those of the rounds before; it
    leaves the policy, the environment and the random source alone. *)
Theorem v_update_hundred_steps (data : Batch) (ag : Agent) :
  exists ag',
    runs (v_update data) ag tt ag' (EvVUpdate :: replicate 100 EvVOptStep) /\
    ag_v ag' =
      Nat.iter 100 (fun l => learner_step (learner_backward (v_loss data) l))
               (learner_zero_grad (ag_v ag)) /\
    ag_pi ag' = ag_pi ag /\ ag_env ag' = ag_env ag /\ ag_rng ag' = ag_rng ag.
Proof.
  set (ag0 :=
    {| ag_env := ag_env ag; ag_rng := ag_rng ag; ag_pi := ag_pi ag;
       ag_v := ag_v ag; ag_log := ag_log ag ++ [EvVUpdate] |}).
  set (ag1 :=
    {| ag_env := ag_env ag0; ag_rng := ag_rng ag0; ag_pi := ag_pi ag0;
       ag_v := learner_zero_grad (ag_v ag0); ag_log := ag_log ag0 |}).
  destruct (runs_v_loop_iter data 100 0 ag1) as (ag' & Hr & Hv & Hp & He & Hg).
  exists ag'. split; [|split; [exact Hv|split; [exact Hp|split; assumption]]].
  assert (H : runs (v_update data) ag tt ag'
                ([EvVUpdate] ++ [] ++ [] ++ replicate 100 EvVOptStep)).
  { unfold v_update.
    eapply runs_bind; [apply runs_log|].
    eapply runs_bind; [apply runs_get_v|].
    eapply runs_bind; [apply runs_set_v|].
    exact Hr. }
  exact H.
Qed.

Lemma zip_fsub_Fin (x y : list R) :
  zip_with fsub (map Fin x) (map Fin y) = map Fin (zip_with Rminus x y).
Proof.
  revert y. induction x as [|a x IH]; intros [|c y]; try reflexivity.
  simpl. now rewrite IH.
Qed.

Lemma zip_sq_err_Fin (v : Obs -> R) (obs : list Obs) (ts : list R) :
  zip_with (fun f t => fmul (fsub f t) (fsub f t))
           (map (fun o => Fin (v o)) obs) (map Fin ts) =
  map Fin (zip_with (fun o t => (v o - t) * (v o - t)) obs ts).
Proof.
  revert ts. induction obs as [|o obs IH]; intros [|t ts]; try reflexivity.
  simpl. now rewrite IH.
Qed.

(** X18. For a batch returned by [get] on a buffer of non-zero capacity,
    with finite advantages, the loss of [v_update] is a real number: the
    mean over the batch of the squared difference between the critic's
    value at the stored observation and [return - advantage]; it is never
    negative. *)
Theorem v_loss_mse (b b' : VPGBuffer) (data : Batch) (advs : list R)
    (p : params) :
  Buffer.wf b -> Buffer.get b = Ok (b', data) ->
  data_phi data = map Fin advs -> (0 < max_size b)%nat ->
  let mse :=
    Rmean (zip_with (fun o t => (v_net p o - t) * (v_net p o - t))
                    (data_obs data)
                    (zip_with Rminus (data_ret data) advs)) in
  v_loss data p = Fin mse /\ 0 <= mse.
Proof.
  intros Hwf Hget Hphi Hpos mse.
  destruct (get_batch b b' data Hwf Hget) as (_ & _ & Ho & _ & Hp).
  assert (Hr : length (data_ret data) = max_size b).
  { destruct Hwf. destruct (decide (ptr b = max_size b)) as [Heq|Hne].
    - rewrite get_ok in Hget by assumption. now injection Hget as _ <-.
    - rewrite get_raise in Hget by assumption. discriminate. }
  assert (Ha : length advs = max_size b)
    by (rewrite Hphi, length_map in Hp; exact Hp).
  split.
  - unfold v_loss. rewrite Hphi, zip_fsub_Fin, zip_sq_err_Fin.
    apply np_mean_Fin. intros Hnil. apply (f_equal length) in Hnil.
    rewrite !length_zip_with in Hnil. simpl in Hnil. lia.
  - apply Rmean_nonneg. clear.
    generalize (zip_with Rminus (data_ret data) advs). intros ts.
    revert ts. induction (data_obs data) as [|o obs IH].
    + intros ts. apply List.Forall_nil.
    + intros [|t ts]; simpl; [apply List.Forall_nil|].
      apply List.Forall_cons; [apply (Rle_0_sqr (v_net p o - t))|apply IH].
Qed.

End AgentFacts.

(* ===================================================================== *)
(** ** More about [train] *)
(* ===================================================================== *)

Section TrainMore.

Context {E : Environment} {T : Torch}.

(** The action, the value and the log-probability that [ac.step(st)]
    returns are those of [step] at the agent's parameters. *)
Lemma runs_ac_step_exact (st : Obs) (ag : Agent) :
  exists a lp ag',
    runs (ac_step st) ag (a, v_net (l_params (ag_v ag)) st, Some lp) ag'
         [EvAcStep st] /\
    ag_env ag' = ag_env ag /\ ag_pi ag' = ag_pi ag /\ ag_v ag' = ag_v ag /\
    fst (step (l_params (ag_pi ag)) (l_params (ag_v ag)) st (ag_rng ag)) =
      (a, v_net (l_params (ag_v ag)) st, Some lp).
Proof.
  unfold runs, ac_step. rewrite step_eq. simpl.
  eexists _, _, _. repeat split.
Qed.

(** One iteration of the inner loop, with the locals it leaves. *)
Lemma train_step_full (steps mel t : nat) (l : Locals) (ag : Agent) :
  Buffer.wf (buf l) -> (ptr (buf l) < max_size (buf l))%nat ->
  exists a lp ns r terminal truncated b1 obs' ag',
    snd (env_step (ag_env ag) a) = (ns, r, terminal, truncated) /\
    Buffer.store (buf l) (state l) a r
                 (v_net (l_params (ag_v ag)) (state l)) lp = Ok b1 /\
    let timeout := Nat.eqb (ep_len l + 1) mel in
    let epoch_ended := Nat.eqb t (steps - 1) in
    let closing := terminal || timeout || epoch_ended in
    let last_val :=
      if epoch_ended then v_net (l_params (ag_v ag)) ns else 0 in
    runs (train_step steps mel t l) ag
      (if closing then
         {| buf := Buffer.end_traj b1 last_val; state := obs'; ep_ret := 0;
            ep_len := 0;
            ep_returns :=
              if timeout || terminal then ep_returns l ++ [ep_ret l + r]
              else ep_returns l |}
       else
         {| buf := b1; state := ns; ep_ret := ep_ret l + r;
            ep_len := (ep_len l + 1)%nat; ep_returns := ep_returns l |})
      ag'
      ([EvAcStep (state l); EvEnvStep a; EvStore (ptr (buf l))]
       ++ (if closing then
             (if epoch_ended then [EvAcStep ns] else [])
             ++ [EvEndTraj (ptr b1) last_val; EvReset]
           else [])) /\
    ag_pi ag' = ag_pi ag /\ ag_v ag' = ag_v ag /\
    fst (step (l_params (ag_pi ag)) (l_params (ag_v ag)) (state l)
              (ag_rng ag)) =
      (a, v_net (l_params (ag_v ag)) (state l), Some lp).
Proof.
  intros Hwf Hlt.
  destruct (runs_ac_step_exact (state l) ag)
    as (a & lp & ag1 & [Hc1 Hl1] & He1 & Hp1 & Hv1 & Hstep).
  destruct (runs_step_env a ag1) as (ag2 & [Hc2 Hl2] & Hp2 & Hv2).
  rewrite He1 in Hc2.
  destruct (snd (env_step (ag_env ag) a))
    as [[[ns r] terminal] truncated] eqn:Henv.
  destruct (runs_buf_store (buf l) (state l) a r
              (v_net (l_params (ag_v ag)) (state l)) lp ag2 Hwf Hlt)
    as (b1 & ag3 & [Hc3 Hl3] & Hst & He3 & Hp3 & Hv3).
  set (timeout := Nat.eqb (ep_len l + 1) mel).
  set (epoch_ended := Nat.eqb t (steps - 1)).
  destruct (runs_bootstrap_value epoch_ended ns ag3)
    as (ag4 & [Hc4 Hl4] & He4 & Hp4 & Hv4).
  destruct (runs_buf_end_traj b1
              (if epoch_ended then v_net (l_params (ag_v ag3)) ns else 0) ag4)
    as (ag5 & [Hc5 Hl5] & He5 & Hp5 & Hv5).
  destruct (runs_reset_env ag5) as (obs & ag6 & [Hc6 Hl6] & Hp6 & Hv6).
  assert (Hvv : ag_v ag3 = ag_v ag) by congruence.
  destruct (terminal || timeout || epoch_ended) eqn:Hclose.
  - exists a, lp, ns, r, terminal, truncated, b1, obs, ag6.
    split; [exact Henv|]. split; [exact Hst|]. cbv zeta.
    fold timeout epoch_ended. rewrite Hclose.
    split; [split|].
    + unfold train_step, bindM. rewrite Hc1, Hc2, Hc3.
      fold timeout epoch_ended. rewrite Hclose, Hc4, Hc5, Hc6.
      rewrite Hvv. reflexivity.
    + rewrite Hl6, Hl5, Hl4, Hl3, Hl2, Hl1, Hvv.
      rewrite <- !app_assoc. reflexivity.
    + split; [congruence|]. split; [congruence|exact Hstep].
  - exists a, lp, ns, r, terminal, truncated, b1, (state l), ag3.
    split; [exact Henv|]. split; [exact Hst|]. cbv zeta.
    fold timeout epoch_ended. rewrite Hclose.
    split; [split|].
    + unfold train_step, bindM. rewrite Hc1, Hc2, Hc3.
      fold timeout epoch_ended. rewrite Hclose. reflexivity.
    + rewrite Hl3, Hl2, Hl1. rewrite <- !app_assoc. reflexivity.
    + split; [congruence|]. split; [congruence|exact Hstep].
Qed.


(** X20. The open trajectory of the buffer is the running episode, and it
    stays shorter than [max_ep_len]: if before a step
    [path_start_idx + ep_len = ptr] and [ep_len < max_ep_len], the same
    holds after it.  So a step that closes the trajectory closes one of
    [ep_len + 1] transitions, at least one and at most [max_ep_len], and
    leaves no trajectory open. *)
Theorem train_step_episode_length (steps mel t : nat) (l : Locals)
    (ag : Agent) :
  Buffer.wf (buf l) -> (ptr (buf l) < max_size (buf l))%nat ->
  episode_open mel l ->
  exists l' ag' evs,
    runs (train_step steps mel t l) ag l' ag' evs /\
    Buffer.wf (buf l') /\
    episode_open mel l' /\
    ptr (buf l') = S (ptr (buf l)) /\
    (ep_len l' = 0%nat ->
     path_start_idx (buf l') = ptr (buf l') /\
     (ptr (buf l') - path_start_idx (buf l))%nat = (ep_len l + 1)%nat /\
     (1 <= ep_len l + 1 <= mel)%nat).
Proof.
  intros Hwf Hlt [Hopen Hlen].
  destruct (train_step_full steps mel t l ag Hwf Hlt)
    as (a & lp & ns & r & terminal & truncated & b1 & obs' & ag' & Henv & Hst
        & Hrun & _).
  cbv zeta in Hrun.
  pose proof (store_wf _ _ _ _ _ _ _ Hwf Hst) as Hwf1.
  destruct (store_ptr_next _ _ _ _ _ _ _ Hst) as (Hp1 & Hm1 & Hs1).
  eexists _, ag', _. split; [exact Hrun|].
  destruct (terminal || Nat.eqb (ep_len l + 1) mel || Nat.eqb t (steps - 1))
    eqn:Hclose; simpl.
  - split; [now apply end_traj_wf|]. split; [split; simpl; lia|].
    split; [exact Hp1|]. intros _. lia.
  - assert (Hto : Nat.eqb (ep_len l + 1) mel = false).
    { destruct terminal; [discriminate|]. simpl in Hclose.
      now apply orb_false_elim in Hclose as [-> _]. }
    apply Nat.eqb_neq in Hto.
    split; [exact Hwf1|]. split; [split; simpl; lia|].
    split; [exact Hp1|]. intros H0. lia.
Qed.

(* ------------------------------------------------------------------- *)
(** *** The inner loop as a whole *)
(* ------------------------------------------------------------------- *)


Lemma train_step_counts (steps mel t : nat) (l : Locals) (ag : Agent) :
  Buffer.wf (buf l) -> (ptr (buf l) < max_size (buf l))%nat ->
  exists l' ag' evs,
    runs (train_step steps mel t l) ag l' ag' evs /\
    Buffer.wf (buf l') /\
    ptr (buf l') = S (ptr (buf l)) /\
    max_size (buf l') = max_size (buf l) /\
    count_events is_env_step evs = 1%nat /\
    (t = (steps - 1)%nat ->
     path_start_idx (buf l') = ptr (buf l') /\
     ep_len l' = 0%nat /\ ep_ret l' = 0).
Proof.
  intros Hwf Hlt.
  destruct (train_step_full steps mel t l ag Hwf Hlt)
    as (a & lp & ns & r & terminal & truncated & b1 & obs' & ag' & Henv & Hst
        & Hrun & _).
  cbv zeta in Hrun.
  pose proof (store_wf _ _ _ _ _ _ _ Hwf Hst) as Hwf1.
  destruct (store_ptr_next _ _ _ _ _ _ _ Hst) as (Hp1 & Hm1 & Hs1).
  eexists _, ag', _. split; [exact Hrun|].
  destruct (terminal || Nat.eqb (ep_len l + 1) mel || Nat.eqb t (steps - 1))
    eqn:Hclose; simpl.
  - split; [now apply end_traj_wf|]. split; [exact Hp1|]. split; [exact Hm1|].
    split; [destruct (Nat.eqb t (steps - 1)); reflexivity|].
    intros _. repeat split.
  - split; [exact Hwf1|]. split; [exact Hp1|]. split; [exact Hm1|].
    split; [reflexivity|].
    intros ->. rewrite Nat.eqb_refl, !orb_true_r in Hclose. discriminate.
Qed.

Lemma collect_loop_counts (steps mel : nat) :
  forall (n start : nat) (l : Locals) (ag : Agent),
    Buffer.wf (buf l) -> ptr (buf l) = start ->
    (start + n <= max_size (buf l))%nat ->
    exists l' ag' evs,
      runs (for_range n start (train_step steps mel) l) ag l' ag' evs /\
      Buffer.wf (buf l') /\
      ptr (buf l') = (start + n)%nat /\
      max_size (buf l') = max_size (buf l) /\
      count_events is_env_step evs = n /\
      (n = 0%nat -> l' = l) /\
      ((0 < n)%nat -> (start + n)%nat = steps ->
       path_start_idx (buf l') = ptr (buf l') /\
       ep_len l' = 0%nat /\ ep_ret l' = 0).
Proof.
  induction n as [|n IH]; intros start l ag Hwf Hptr Hle.
  - exists l, ag, []. split; [apply runs_ret|].
    split; [exact Hwf|]. split; [lia|].
    repeat split; try reflexivity; lia.
  - destruct (train_step_counts steps mel start l ag Hwf ltac:(lia))
      as (l1 & ag1 & evs1 & Hr1 & Hwf1 & Hp1 & Hm1 & Hc1 & Hlast1).
    destruct (IH (S start) l1 ag1 Hwf1 ltac:(lia) ltac:(lia))
      as (l2 & ag2 & evs2 & Hr2 & Hwf2 & Hp2 & Hm2 & Hc2 & Hnil2 & Hlast2).
    exists l2, ag2, (evs1 ++ evs2).
    split; [exact (runs_bind _ _ _ _ _ _ _ _ _ Hr1 Hr2)|].
    split; [exact Hwf2|]. split; [lia|]. split; [congruence|].
    split; [rewrite count_events_app; lia|].
    split; [discriminate|].
    intros _ Hend. destruct n as [|n'].
    + rewrite (Hnil2 eq_refl). apply Hlast1. lia.
    + apply Hlast2; lia.
Qed.

(** X21. In every epoch of at least one step, the inner loop of [train]
    steps the environment exactly [steps_per_epoch] times and fills the
    buffer; when it ends no trajectory is open
    ([path_start_idx = ptr = max_size]) and the running return and length of
    the episode are back at 0, so that [get] is called on closed
    trajectories only. *)
Theorem collect_epoch_closed (steps mel : nat) (l : Locals) (ag : Agent) :
  Buffer.wf (buf l) -> ptr (buf l) = 0%nat -> max_size (buf l) = steps ->
  (0 < steps)%nat ->
  exists l' ag' evs,
    runs (for_range steps 0 (train_step steps mel) l) ag l' ag' evs /\
    count_events is_env_step evs = steps /\
    ptr (buf l') = max_size (buf l') /\
    path_start_idx (buf l') = ptr (buf l') /\
    ep_len l' = 0%nat /\ ep_ret l' = 0 /\
    Buffer.wf (buf l').
Proof.
  intros Hwf Hptr Hmax Hpos.
  destruct (collect_loop_counts steps mel steps 0 l ag Hwf Hptr ltac:(simpl; lia))
    as (l' & ag' & evs & Hr & Hwf' & Hp & Hm & Hc & _ & Hlast).
  destruct (Hlast Hpos eq_refl) as (Hps & Hlen & Hret).
  exists l', ag', evs. split; [exact Hr|]. split; [exact Hc|].
  split; [simpl in Hp; lia|]. split; [exact Hps|]. split; [exact Hlen|].
  split; [exact Hret|exact Hwf'].
Qed.

(* ------------------------------------------------------------------- *)
(** *** Evaluation *)
(* ------------------------------------------------------------------- *)





End TrainMore.


(* ===================================================================== *)
(** ** The categorical policy *)
(* ===================================================================== *)

Lemma Rsum_exp_pos (logits : list R) :
  logits <> [] -> 0 < Rsum (map exp logits).
Proof.
  destruct logits as [|x l]; [contradiction|]. intros _. simpl.
  assert (0 <= Rsum (map exp l)).
  { apply Rsum_nonneg. induction l; constructor; [apply Rlt_le, exp_pos|].
    assumption. }
  pose proof (exp_pos x). lra.
Qed.

Lemma nth_le_Rsum (xs : list R) (i : nat) :
  Forall (fun x => 0 <= x) xs -> (i < length xs)%nat -> nth i xs 0 <= Rsum xs.
Proof.
  intros H. revert i. induction H as [|x xs Hx Hxs IH]; intros i Hi.
  - simpl in Hi. lia.
  - pose proof (Rsum_nonneg xs Hxs). destruct i as [|i]; simpl.
    + lra.
    + specialize (IH i ltac:(simpl in Hi; lia)). lra.
Qed.

(** X24. The log-probabilities of the categorical policy are those of a
    probability distribution: for logits that are not empty, the
    log-probability of every action in range is at most 0, and the
    probabilities of all actions add up to 1. *)
Theorem log_prob_normalised (logits : list R) (a : Z) :
  logits <> [] ->
  (0 <= a < Z.of_nat (length logits))%Z ->
  log_prob logits a <= 0 /\
  Rsum (map (fun i => exp (log_prob logits (Z.of_nat i)))
            (seq 0 (length logits))) = 1.
Proof.
  intros Hne Ha.
  pose proof (Rsum_exp_pos logits Hne) as HS.
  set (S := Rsum (map exp logits)) in *.
  split.
  - unfold log_prob. fold S.
    assert (Hi : (Z.to_nat a < length logits)%nat) by lia.
    assert (Hle : exp (nth (Z.to_nat a) logits 0) <= S).
    { rewrite <- (map_nth exp).
      rewrite (nth_indep _ (exp 0) 0) by (rewrite length_map; exact Hi).
      apply nth_le_Rsum; [|rewrite length_map; exact Hi].
      clear. induction logits; constructor; [apply Rlt_le, exp_pos|].
      assumption. }
    destruct (Rle_or_lt (nth (Z.to_nat a) logits 0) (ln S)) as [H|H]; [lra|].
    apply exp_increasing in H. rewrite exp_ln in H by exact HS. lra.
  - rewrite (map_ext_in _ (fun i => exp (nth i logits 0) / S)).
    2:{ intros i _. unfold log_prob. fold S. rewrite Nat2Z.id.
        unfold Rminus. rewrite exp_plus, exp_Ropp, exp_ln by exact HS.
        reflexivity. }
    rewrite <- (map_nth_seq (fun x => exp x / S) logits).
    rewrite (Rsum_map_div S exp logits). fold S. field. lra.
Qed.

Lemma log_prob_normalised_witness : log_prob [1; 0; 0; 0] 1 <= 0.
Proof.
  apply (log_prob_normalised [1; 0; 0; 0] 1); [discriminate|simpl; lia].
Defined.

(* ===================================================================== *)
(** ** NaN advantages and the policy loss *)
(* ===================================================================== *)

Lemma fsum_nan (l : list fl) : In NaN l -> fsum l = NaN.
Proof.
  induction l as [|x l IH]; [contradiction|].
  intros [->|Hin]; simpl.
  - reflexivity.
  - rewrite (IH Hin). now destruct x.
Qed.

Section NanLoss.

Context {T : Torch}.

(** X25. NaN among the advantages poisons the policy update: on a batch of
    [n] samples, if the advantage of one sample is NaN (as both are in the
    batch that [get] returns for the two advantages 1 and 1), the loss of
    [pi_update] is NaN, whatever the policy parameters and the other
    advantages. *)
Theorem nan_advantage_poisons_loss (data : Batch) (p : params) (n i : nat) :
  length (data_obs data) = n -> length (data_act data) = n ->
  length (data_phi data) = n ->
  (i < n)%nat -> nth i (data_phi data) (Fin 0) = NaN ->
  pi_loss data p = NaN.
Proof.
  intros Ho Ha Hp Hi Hnan.
  rewrite (pi_loss_nth data p n Ho Ha Hp).
  unfold np_mean. rewrite fsum_nan; [reflexivity|].
  apply in_map_iff. exists i. split; [|apply in_seq; lia].
  rewrite (nth_indep _ NaN (Fin 0)) by lia. now rewrite Hnan.
Qed.

End NanLoss.

Lemma nan_advantage_poisons_loss_witness :
  exists b' data,
    Buffer.get buf_flat = Ok (b', data) /\
    pi_loss (T := torch_const) data tt = NaN.
Proof.
  destruct get_buf_flat as [b' Hget].
  exists b'. eexists. split; [exact Hget|].
  apply (nan_advantage_poisons_loss (T := torch_const) _ tt 2 0);
    [reflexivity|reflexivity|reflexivity|lia|reflexivity].
Defined.

Lemma v_loss_mse_witness :
  exists mse : R,
    v_loss (T := torch_const)
           {| data_obs := [[0]; [0]]; data_act := [0%Z; 0%Z];
              data_ret := [0; 0];
              data_phi := map Fin (map (fun x => (x - Rmean [0; 2]) / Rstd [0; 2])
                                       [0; 2]);
              data_logp := [0; 0] |} tt = Fin mse /\ 0 <= mse.
Proof.
  eexists.
  apply (v_loss_mse (T := torch_const) buf_full
           {| obs_buf := obs_buf buf_full; act_buf := act_buf buf_full;
              phi_buf := map Fin (map (fun x => (x - Rmean [0; 2]) / Rstd [0; 2])
                                      [0; 2]);
              rew_buf := rew_buf buf_full; ret_buf := ret_buf buf_full;
              val_buf := val_buf buf_full; logp_buf := logp_buf buf_full;
              gamma := gamma buf_full; lam := lam buf_full; ptr := 0;
              path_start_idx := 0; max_size := max_size buf_full |}
           _ (map (fun x => (x - Rmean [0; 2]) / Rstd [0; 2]) [0; 2]) tt
           buf_full_wf).
  - rewrite get_ok by reflexivity. simpl phi_buf.
    change [Fin 0; Fin 2] with (map Fin [0; 2]).
    rewrite normalise_Fin by apply Rstd_zero_two.
    rewrite <- map_map. reflexivity.
  - reflexivity.
  - simpl. lia.
Defined.


Lemma train_step_episode_length_witness :
  episode_open 1 locals_start /\
  exists l' ag' evs,
    runs (train_step 3 1 0 locals_start) agent_const l' ag' evs /\
    episode_open 1 l'.
Proof.
  assert (Hopen : episode_open 1 locals_start) by (split; simpl; lia).
  split; [exact Hopen|].
  destruct (train_step_episode_length 3 1 0 locals_start agent_const
              (init_wf 8 3 _ _) ltac:(simpl; lia) Hopen)
    as (l' & ag' & evs & Hrun & _ & Hopen' & _).
  exists l', ag', evs. split; [exact Hrun|exact Hopen'].
Defined.

Lemma collect_epoch_closed_witness :
  exists l' ag' evs,
    runs (for_range 3 0 (train_step 3 1) locals_start) agent_const l' ag' evs /\
    path_start_idx (buf l') = ptr (buf l').
Proof.
  destruct (collect_epoch_closed 3 1 locals_start agent_const
              (init_wf 8 3 _ _) eq_refl eq_refl ltac:(lia))
    as (l' & ag' & evs & Hrun & _ & _ & Hps & _).
  exists l', ag', evs. split; [exact Hrun|exact Hps].
Defined.
